(** * magic-router: the navigation lifecycle of [src/router.js]

    A shallow embedding of the [Router] class: route matching
    ([checkRoutes], [enableSPA]), the fetch and render pipeline ([getPage],
    [navigate], [loadHTML], [runScripts]), the script registry
    ([loadHeadScripts], [isNotInitialScript], [loadBodyScripts], [clear])
    and the history listener ([addRouteListener]).

    The browser is an explicit [World] threaded through a small
    state-and-exception monad: the live document, the document made by the
    latest [parseHTML], the session history, and a trace of the effects the
    class only writes (console, fetch requests, listeners).  The two
    engines the class calls but does not define, [RegExp] and [DOMParser],
    are parameters of the development.

    Scope of the model.  Strings are ASCII.  A DOM tree keeps its script
    and link elements and the tags of the other elements; text nodes and
    other attributes are left out.  What a script does when it executes is
    not modelled.  The handlers of a promise run when it settles, with no
    other event in between.  The urls given to [pushState] are absolute
    paths. *)

From Stdlib Require Import String Ascii List ZArith Bool Arith Lia RelationClasses.
Import ListNotations.
Open Scope string_scope.
Open Scope list_scope.

(** ** Completions: a JavaScript evaluation returns or throws *)

(** The part of a fetch [Response] that [getPage] reads.  [text_body] is
    the outcome of [response.text()]: [None] when decoding rejects. *)
Record Response := mkResponse {
  status : Z;
  statusText : string;
  text_body : option string
}.

(** [response.ok]: the status is in the range 200-299. *)
Definition ok (r : Response) : bool :=
  ((200 <=? status r) && (status r <=? 299))%Z.

(** An [Error] object with the two properties [getPage] adds to it. *)
Record JsError := mkError {
  message : string;
  err_status : option Z;
  err_response : option Response
}.

Definition TypeError (msg : string) : JsError :=
  {| message := msg; err_status := None; err_response := None |}.

Inductive Completion (A : Type) : Type :=
| Normal (a : A)
| Throw (e : JsError).
Arguments Normal {A} a.
Arguments Throw {A} e.

Definition cbind {A B} (c : Completion A) (k : A -> Completion B) : Completion B :=
  match c with
  | Normal a => k a
  | Throw e => Throw e
  end.

(** ** Strings *)

(** [String.prototype.replace('*', '')]: only the first occurrence goes. *)
Fixpoint replace_first_star (s : string) : string :=
  match s with
  | EmptyString => EmptyString
  | String c r => if Ascii.eqb c "*" then r else String c (replace_first_star r)
  end.

(** Case folding of the [i] flag, on ASCII letters. *)
Definition canonicalize (c : ascii) : ascii :=
  let n := nat_of_ascii c in
  if ((97 <=? n) && (n <=? 122))%nat then ascii_of_nat (n - 32) else c.

Definition eqb_ci (a b : ascii) : bool :=
  Ascii.eqb (canonicalize a) (canonicalize b).

(** ** A fragment of [RegExp]: literal characters and the dot

    The class hands [route.replace('*', '')] to [new RegExp(_, 'i')].  The
    engine is a parameter of the development below; this fragment fixes its
    meaning on the sources made of ordinary characters and [.], the ones
    the documented routes (['*.html'], ['/site/*']) produce. *)
Module Fragment.

Inductive Atom := Lit (c : ascii) | AnyChar.

(** The syntax characters of the pattern grammar. *)
Definition syntax_chars : list ascii :=
  list_ascii_of_string "^$\.*+?()[]{}|".

Definition is_syntax_char (c : ascii) : bool :=
  existsb (Ascii.eqb c) syntax_chars.

Fixpoint compile (src : string) : option (list Atom) :=
  match src with
  | EmptyString => Some []
  | String c r =>
      if Ascii.eqb c "." then option_map (cons AnyChar) (compile r)
      else if is_syntax_char c then None
      else option_map (cons (Lit c)) (compile r)
  end.

(** Line terminators, which the dot does not match. *)
Definition is_line_terminator (c : ascii) : bool :=
  ((nat_of_ascii c =? 10) || (nat_of_ascii c =? 13))%nat.

Definition atom_matches (a : Atom) (c : ascii) : bool :=
  match a with
  | Lit l => eqb_ci l c
  | AnyChar => negb (is_line_terminator c)
  end.

(** The atoms match a prefix of [s]. *)
Fixpoint match_here (p : list Atom) (s : string) : bool :=
  match p with
  | [] => true
  | a :: p' =>
      match s with
      | EmptyString => false
      | String c s' => atom_matches a c && match_here p' s'
      end
  end.

(** [test] is unanchored: the atoms match at some position of [s]. *)
Fixpoint search (p : list Atom) (s : string) : bool :=
  match_here p s ||
  match s with
  | EmptyString => false
  | String _ s' => search p s'
  end.

(** An engine for the examples: it answers on the fragment and reports
    every other source as a pattern it does not accept. *)
Definition test (src s : string) : Completion bool :=
  match compile src with
  | Some p => Normal (search p s)
  | None => Throw (TypeError "Invalid regular expression")
  end.

End Fragment.

(** ** The DOM *)

(** A [<script>] element.  [sc_id] stands for the identity of the object;
    [sc_text] is its text ([textContent], and [innerText] as well since a
    script element is not rendered). *)
Record ScriptEl := mkScript {
  sc_id : nat;
  sc_type : string;
  sc_src : string;
  sc_text : string
}.

(** An [<a>] or [<area>] element with an [href], as [document.links] lists
    them; [ln_dataset] holds the keys of its [dataset]. *)
Record LinkEl := mkLink {
  ln_id : nat;
  pathname : string;
  ln_dataset : list string
}.

(** A sequence of sibling nodes, each with its children.  A script element
    has no element children. *)
Inductive Forest :=
| FNil
| FScript (s : ScriptEl) (rest : Forest)
| FLink (l : LinkEl) (kids rest : Forest)
| FElem (tag : string) (kids rest : Forest).

Record Document := mkDocument {
  head : Forest;
  body : Forest;
  title : string
}.

Definition ScriptEl_eqb (a b : ScriptEl) : bool :=
  (sc_id a =? sc_id b)%nat && String.eqb (sc_type a) (sc_type b)
  && String.eqb (sc_src a) (sc_src b) && String.eqb (sc_text a) (sc_text b).

(** Siblings [f] followed by siblings [g]. *)
Fixpoint fapp (f g : Forest) : Forest :=
  match f with
  | FNil => g
  | FScript s r => FScript s (fapp r g)
  | FLink l k r => FLink l k (fapp r g)
  | FElem t k r => FElem t k (fapp r g)
  end.

(** The script elements of a forest, in document order. *)
Fixpoint scripts_of (f : Forest) : list ScriptEl :=
  match f with
  | FNil => []
  | FScript s r => s :: scripts_of r
  | FLink _ k r => scripts_of k ++ scripts_of r
  | FElem _ k r => scripts_of k ++ scripts_of r
  end.

(** The links of a forest, in document order. *)
Fixpoint links_of (f : Forest) : list LinkEl :=
  match f with
  | FNil => []
  | FScript _ r => links_of r
  | FLink l k r => l :: links_of k ++ links_of r
  | FElem _ k r => links_of k ++ links_of r
  end.

(** [x.remove()]: the node leaves its parent. *)
Fixpoint fremove (x : ScriptEl) (f : Forest) : Forest :=
  match f with
  | FNil => FNil
  | FScript s r => if ScriptEl_eqb x s then fremove x r else FScript s (fremove x r)
  | FLink l k r => FLink l (fremove x k) (fremove x r)
  | FElem t k r => FElem t (fremove x k) (fremove x r)
  end.

(** [x.parentNode.insertBefore(y, x); x.remove()]: [y] takes the place of [x]. *)
Fixpoint freplace (x y : ScriptEl) (f : Forest) : Forest :=
  match f with
  | FNil => FNil
  | FScript s r =>
      if ScriptEl_eqb x s then FScript y (freplace x y r) else FScript s (freplace x y r)
  | FLink l k r => FLink l (freplace x y k) (freplace x y r)
  | FElem t k r => FElem t (freplace x y k) (freplace x y r)
  end.

(** [x.parentNode.tagName] inside the children [f] of an element whose tag
    is [top]; [None] when [x] is not in [f]. *)
Fixpoint parent_tag (top : string) (x : ScriptEl) (f : Forest) : option string :=
  match f with
  | FNil => None
  | FScript s r => if ScriptEl_eqb x s then Some top else parent_tag top x r
  | FLink _ k r =>
      match parent_tag "A" x k with
      | Some t => Some t
      | None => parent_tag top x r
      end
  | FElem t k r =>
      match parent_tag t x k with
      | Some t' => Some t'
      | None => parent_tag top x r
      end
  end.

(** [document.scripts] and [document.links]. *)
Definition scripts (d : Document) : list ScriptEl :=
  scripts_of (head d) ++ scripts_of (body d).

Definition links (d : Document) : list LinkEl :=
  links_of (head d) ++ links_of (body d).

(** [DOMParser] builds new objects: the identities of a parsed document
    are moved above every identity handed out so far. *)
Fixpoint shift_ids (k : nat) (f : Forest) : Forest :=
  match f with
  | FNil => FNil
  | FScript s r =>
      FScript (mkScript (k + sc_id s) (sc_type s) (sc_src s) (sc_text s)) (shift_ids k r)
  | FLink l kd r =>
      FLink (mkLink (k + ln_id l) (pathname l) (ln_dataset l)) (shift_ids k kd) (shift_ids k r)
  | FElem t kd r => FElem t (shift_ids k kd) (shift_ids k r)
  end.

(** One more than the largest identity in the forest. *)
Fixpoint id_bound (f : Forest) : nat :=
  match f with
  | FNil => 0
  | FScript s r => Nat.max (S (sc_id s)) (id_bound r)
  | FLink l kd r => Nat.max (S (ln_id l)) (Nat.max (id_bound kd) (id_bound r))
  | FElem _ kd r => Nat.max (id_bound kd) (id_bound r)
  end.

(** ** The browser and the router instance *)

(** The [state] of a session history entry: [null], or an object with or
    without a [url] property. *)
Inductive HistoryState :=
| StateNull
| StateObject (url : option string).

Record HistoryEntry := mkEntry {
  h_state : HistoryState;
  h_title : string;
  h_url : string
}.

(** Effects the class only writes. *)
Inductive Effect :=
| ConsoleError (msg : string)
| FetchRequest (url : string)
| PreventDefault
| ClickListener (l : LinkEl).

(** The fields of an enabled [Router] ([routes] is [options.routes]) and the
    parts of [window] it touches.  [parsed] is the document object made by
    the latest [parseHTML], the [$html] of [navigate]. *)
Record World := mkWorld {
  routes : list string;
  scriptsStore : list ScriptEl;
  initialScripts : list ScriptEl;
  document : Document;
  parsed : Document;
  next_id : nat;
  entries : list HistoryEntry;
  index : nat;
  location_pathname : string;
  popstate_listener : bool;
  trace : list Effect
}.

Definition set_routes (x : list string) (w : World) : World :=
  mkWorld x (scriptsStore w) (initialScripts w) (document w) (parsed w) (next_id w)
          (entries w) (index w) (location_pathname w) (popstate_listener w) (trace w).

Definition set_scriptsStore (x : list ScriptEl) (w : World) : World :=
  mkWorld (routes w) x (initialScripts w) (document w) (parsed w) (next_id w)
          (entries w) (index w) (location_pathname w) (popstate_listener w) (trace w).

Definition set_initialScripts (x : list ScriptEl) (w : World) : World :=
  mkWorld (routes w) (scriptsStore w) x (document w) (parsed w) (next_id w)
          (entries w) (index w) (location_pathname w) (popstate_listener w) (trace w).

Definition set_document (x : Document) (w : World) : World :=
  mkWorld (routes w) (scriptsStore w) (initialScripts w) x (parsed w) (next_id w)
          (entries w) (index w) (location_pathname w) (popstate_listener w) (trace w).

Definition set_parsed (x : Document) (w : World) : World :=
  mkWorld (routes w) (scriptsStore w) (initialScripts w) (document w) x (next_id w)
          (entries w) (index w) (location_pathname w) (popstate_listener w) (trace w).

Definition set_next_id (x : nat) (w : World) : World :=
  mkWorld (routes w) (scriptsStore w) (initialScripts w) (document w) (parsed w) x
          (entries w) (index w) (location_pathname w) (popstate_listener w) (trace w).

Definition set_history (es : list HistoryEntry) (i : nat) (w : World) : World :=
  mkWorld (routes w) (scriptsStore w) (initialScripts w) (document w) (parsed w) (next_id w)
          es i (location_pathname w) (popstate_listener w) (trace w).

Definition set_location_pathname (x : string) (w : World) : World :=
  mkWorld (routes w) (scriptsStore w) (initialScripts w) (document w) (parsed w) (next_id w)
          (entries w) (index w) x (popstate_listener w) (trace w).

Definition set_popstate_listener (x : bool) (w : World) : World :=
  mkWorld (routes w) (scriptsStore w) (initialScripts w) (document w) (parsed w) (next_id w)
          (entries w) (index w) (location_pathname w) x (trace w).

Definition set_trace (x : list Effect) (w : World) : World :=
  mkWorld (routes w) (scriptsStore w) (initialScripts w) (document w) (parsed w) (next_id w)
          (entries w) (index w) (location_pathname w) (popstate_listener w) x.

(** The messages written with [console.error], oldest first. *)
Fixpoint console_errors (t : list Effect) : list string :=
  match t with
  | [] => []
  | ConsoleError m :: t' => m :: console_errors t'
  | _ :: t' => console_errors t'
  end.

(** The links that carry the [click] listener, oldest first. *)
Fixpoint click_listeners (t : list Effect) : list LinkEl :=
  match t with
  | [] => []
  | ClickListener l :: t' => l :: click_listeners t'
  | _ :: t' => click_listeners t'
  end.

(** ** The monad: state with exceptions; a throw keeps the mutations made
    before it *)

Definition M (A : Type) : Type := World -> Completion A * World.

Definition ret {A} (a : A) : M A := fun w => (Normal a, w).

Definition bind {A B} (m : M A) (k : A -> M B) : M B :=
  fun w =>
    match m w with
    | (Normal a, w') => k a w'
    | (Throw e, w') => (Throw e, w')
    end.

Definition throw {A} (e : JsError) : M A := fun w => (Throw e, w).
Definition gets {A} (f : World -> A) : M A := fun w => (Normal (f w), w).
Definition modify (f : World -> World) : M unit := fun w => (Normal tt, f w).
Definition lift {A} (c : Completion A) : M A := fun w => (c, w).
Definition emit (e : Effect) : M unit :=
  modify (fun w => set_trace (trace w ++ [e]) w).

Notation "x <- m ;; k" := (bind m (fun x => k))
  (at level 100, m at next level, right associativity).
Notation "m ;; k" := (bind m (fun _ => k))
  (at level 100, right associativity).

(** [Array.prototype.forEach]. *)
Fixpoint forEach {A} (f : A -> M unit) (l : list A) : M unit :=
  match l with
  | [] => ret tt
  | a :: l' => f a ;; forEach f l'
  end.

(** ** Promises, as settled values *)

Inductive Settled (A : Type) : Type :=
| Resolved (a : A)
| Rejected (e : JsError).
Arguments Resolved {A} a.
Arguments Rejected {A} e.

(** [p.then(h)] for a handler that returns a value or throws. *)
Definition then_ {A B} (p : Settled A) (h : A -> M B) : M (Settled B) :=
  fun w =>
    match p with
    | Rejected e => (Normal (Rejected e), w)
    | Resolved a =>
        match h a w with
        | (Normal b, w') => (Normal (Resolved b), w')
        | (Throw e, w') => (Normal (Rejected e), w')
        end
    end.

(** [p.then(h)] for a handler that returns a promise or throws. *)
Definition then_promise {A B} (p : Settled A) (h : A -> M (Settled B)) : M (Settled B) :=
  fun w =>
    match p with
    | Rejected e => (Normal (Rejected e), w)
    | Resolved a =>
        match h a w with
        | (Normal q, w') => (Normal q, w')
        | (Throw e, w') => (Normal (Rejected e), w')
        end
    end.

(** [p.catch(h)]. *)
Definition catch_ {A} (p : Settled A) (h : JsError -> M A) : M (Settled A) :=
  fun w =>
    match p with
    | Resolved a => (Normal (Resolved a), w)
    | Rejected e =>
        match h e w with
        | (Normal b, w') => (Normal (Resolved b), w')
        | (Throw e', w') => (Normal (Rejected e'), w')
        end
    end.

(** What the network answers to one [fetch]: the promise rejects (no
    response at all), or resolves with a response of any status. *)
Inductive FetchOutcome :=
| FetchRejects (e : JsError)
| FetchResolves (r : Response).

(** The value [getPage] resolves with: the text, or the response object. *)
Inductive PageValue :=
| PageText (s : string)
| PageResponse (r : Response).

(** The argument of [navigate]: a path, the click event of a link, or
    [undefined]. *)
Inductive NavInput :=
| Undefined
| Path (url : string)
| LinkEvent (currentTarget : LinkEl).

Record Options := mkOptions {
  opt_routes : list string;
  opt_enabled : bool
}.

(** ** The class *)

(** [Array.prototype.findIndex], with a predicate that may throw; [i] is
    the index of the first element of [l]. *)
Fixpoint findIndex {A} (p : A -> Completion bool) (l : list A) (i : Z) : Completion Z :=
  match l with
  | [] => Normal (-1)%Z
  | a :: l' => cbind (p a) (fun b => if b then Normal i else findIndex p l' (i + 1)%Z)
  end.

(** [Array.prototype.filter], with a predicate that may throw. *)
Fixpoint filterC {A} (p : A -> Completion bool) (l : list A) : Completion (list A) :=
  match l with
  | [] => Normal []
  | a :: l' =>
      cbind (p a) (fun b =>
      cbind (filterC p l') (fun r => Normal (if b then a :: r else r)))
  end.

(** [dataset.hasOwnProperty(k)]. *)
Definition hasOwnProperty (dataset : list string) (k : string) : bool :=
  existsb (String.eqb k) dataset.

(** The node leaves whichever tree holds it. *)
Definition detach_doc (x : ScriptEl) (d : Document) : Document :=
  mkDocument (fremove x (head d)) (fremove x (body d)) (title d).

Definition detach (x : ScriptEl) (w : World) : World :=
  set_parsed (detach_doc x (parsed w)) (set_document (detach_doc x (document w)) w).

Definition replace_doc (x y : ScriptEl) (d : Document) : Document :=
  mkDocument (freplace x y (head d)) (freplace x y (body d)) (title d).

Definition parentTag_doc (d : Document) (x : ScriptEl) : option string :=
  match parent_tag "HEAD" x (head d) with
  | Some t => Some t
  | None => parent_tag "BODY" x (body d)
  end.

(** [x.parentNode.tagName], [None] when [x.parentNode] is [null]. *)
Definition parentTag (w : World) (x : ScriptEl) : option string :=
  match parentTag_doc (document w) x with
  | Some t => Some t
  | None => parentTag_doc (parsed w) x
  end.

(** [history.pushState(state, title, url)] with a path for [url]: the
    entries after the current one are dropped, the new one becomes current. *)
Definition pushState (st : HistoryState) (t url : string) : M unit :=
  modify (fun w =>
    let kept := firstn (S (index w)) (entries w) in
    set_location_pathname url (set_history (kept ++ [mkEntry st t url]) (length kept) w)).

(** The string [DOMParser] receives. *)
Definition to_html_string (v : PageValue) : string :=
  match v with
  | PageText s => s
  | PageResponse _ => "[object Response]"
  end.

(** ** Sample pages *)
Module Samples.

(** A parser that answers each page with the same markup: two head
    scripts, a link and two inline scripts, one of them inside a [div]. *)
Definition parse (html : string) : Document :=
  mkDocument
    (FScript (mkScript 0 "" "/app.js" "") (FScript (mkScript 1 "" "/extra.js" "") FNil))
    (FElem "DIV"
       (FLink (mkLink 2 "/a.html" []) FNil (FScript (mkScript 3 "" "" "nested()") FNil))
       (FScript (mkScript 4 "" "" "boot()") FNil))
    html.

(** A page at [/index.php], freshly loaded: one head script, two links, one
    history entry with no state. *)
Definition home : World :=
  mkWorld [] [] []
    (mkDocument
       (FScript (mkScript 0 "" "/app.js" "") FNil)
       (FLink (mkLink 1 "/about.html" []) FNil
          (FLink (mkLink 2 "/legacy.html" ["noSpa"]) FNil FNil))
       "Home")
    (mkDocument FNil FNil "")
    3 [mkEntry StateNull "Home" "/index.php"] 0 "/index.php" false [].

Definition options : Options := mkOptions ["*.html"] true.

Definition ok_page (html : string) : FetchOutcome :=
  FetchResolves (mkResponse 200 "OK" (Some html)).

Definition nested : ScriptEl := mkScript 6 "" "" "nested()".
Definition boot : ScriptEl := mkScript 7 "" "" "boot()".

(** The world of [home] just after a body was swapped in: an inline script
    inside a [div] and an inline script that is a child of the body. *)
Definition swapped : World :=
  mkWorld ["*.html"] [] [mkScript 0 "" "/app.js" ""]
    (mkDocument
       (FScript (mkScript 0 "" "/app.js" "") FNil)
       (FElem "DIV" (FLink (mkLink 5 "/a.html" []) FNil (FScript nested FNil))
          (FScript boot FNil))
       "Page")
    (mkDocument (FScript (mkScript 3 "" "/app.js" "") FNil) FNil "Page")
    8 [mkEntry StateNull "Home" "/index.php"] 0 "/index.php" true [].

End Samples.

(** [pat] matches somewhere in [s]: a substring of [s] has the length of
    [pat] and matches it character by character. *)
Definition occurs {A} (m : A -> ascii -> bool) (pat : list A) (s : string) : Prop :=
  exists pre mid post,
    s = (pre ++ mid ++ post)%string /\
    Forall2 (fun a c => m a c = true) pat (list_ascii_of_string mid).

(** [s] contains [q] as a substring, compared case-insensitively. *)
Definition contains_ci (s q : string) : Prop :=
  occurs eqb_ci (list_ascii_of_string q) s.

(** A pattern source with ordinary characters only. *)
Definition literal (q : string) : Prop :=
  Forall (fun c => Fragment.is_syntax_char c = false) (list_ascii_of_string q).

(** The number of wildcard tokens in a pattern. *)
Fixpoint wildcards (p : string) : nat :=
  match p with
  | EmptyString => 0
  | String c r => (if Ascii.eqb c "*" then 1 else 0) + wildcards r
  end.

Section Router.

Set Default Proof Using "Type*".

(** [(new RegExp(source, 'i')).test(s)]; it throws on a malformed source. *)
Variable RegExp_test : string -> string -> Completion bool.

(** [(new DOMParser()).parseFromString(html, 'text/html')], up to the
    identities of the nodes. *)
Variable DOMParser_parse : string -> Document.

(** Propositional closing steps that leave the engines out of the proof. *)
Ltac taut := try clear DOMParser_parse; try clear RegExp_test; tauto.

(** [checkRoutes(routes)], called with a link as [this]. *)
Definition checkRoutes (this : LinkEl) (routes : list string) : Completion bool :=
  cbind (findIndex (fun route => RegExp_test (replace_first_star route) (pathname this))
                   routes 0%Z)
        (fun i => Normal (negb (Z.lnot i =? 0)%Z
                          && negb (hasOwnProperty (ln_dataset this) "noSpa"))).

Definition enableSPA : M unit :=
  patterns <- gets routes ;;
  doc <- gets document ;;
  found <- lift (filterC (fun link => checkRoutes link patterns) (links doc)) ;;
  forEach (fun link => emit (ClickListener link)) found.

Definition fetch (url : string) (net : FetchOutcome) : M (Settled Response) :=
  emit (FetchRequest url) ;;
  ret (match net with
       | FetchRejects e => Rejected e
       | FetchResolves r => Resolved r
       end).

(** [response.text()]. *)
Definition response_text (r : Response) : Settled string :=
  match text_body r with
  | Some s => Resolved s
  | None => Rejected (TypeError "Failed to decode the body")
  end.

Definition getPage (url : string) (net : FetchOutcome) : M (Settled PageValue) :=
  p <- fetch url net ;;
  then_promise p (fun response =>
    if ok response then
      match response_text response with
      | Resolved s => ret (Resolved (PageText s))
      | Rejected _ => ret (Resolved (PageResponse response))
      end
    else
      throw {| message := statusText response;
               err_status := Some (status response);
               err_response := Some response |}).

Definition getUrl (url : NavInput) : M string :=
  match url with
  | LinkEvent link => ret (pathname link)
  | Path p => ret p
  | Undefined => throw (TypeError "Cannot read properties of undefined (reading 'target')")
  end.

(** [parseHTML(html)]: the new document object becomes [parsed]. *)
Definition parseHTML (html : PageValue) : M unit :=
  modify (fun w =>
    let d := DOMParser_parse (to_html_string html) in
    let k := next_id w in
    set_next_id (k + Nat.max (id_bound (head d)) (id_bound (body d)))
      (set_parsed (mkDocument (shift_ids k (head d)) (shift_ids k (body d)) (title d)) w)).

(** [loadHTML($html)] for the [$html] held in [parsed]: the body element
    moves to the live document, so [$html] loses it. *)
Definition loadHTML : M unit :=
  modify (fun w =>
    let h := parsed w in
    set_parsed (mkDocument (head h) FNil (title h))
      (set_document (mkDocument (head (document w)) (body h) (title h)) w)).

Definition isNotInitialScript (sc : ScriptEl) : M bool :=
  initial <- gets initialScripts ;;
  ret (negb (existsb (fun init => String.eqb (sc_src init) (sc_src sc)) initial)
       || negb (existsb (fun init => String.eqb (sc_text init) (sc_text sc)) initial)).

(** [document.head.appendChild(sc)]: [sc] leaves its parent and becomes
    the last child of the live head. *)
Definition appendChild_head (sc : ScriptEl) : M unit :=
  modify (fun w =>
    let w' := detach sc w in
    let d := document w' in
    set_document (mkDocument (fapp (head d) (FScript sc FNil)) (body d) (title d)) w').

Definition loadHeadScripts (sc : ScriptEl) : M unit :=
  fresh <- isNotInitialScript sc ;;
  if fresh then
    modify (fun w => set_scriptsStore (scriptsStore w ++ [sc]) w) ;;
    appendChild_head sc
  else ret tt.

(** [document.createElement('script')]. *)
Definition createElement_script : M ScriptEl :=
  k <- gets next_id ;;
  modify (set_next_id (S k)) ;;
  ret (mkScript k "" "" "").

Definition loadBodyScripts (sc : ScriptEl) : M unit :=
  created <- createElement_script ;;
  let script :=
    mkScript (sc_id created)
             (if String.eqb (sc_type sc) "" then "text/javascript" else sc_type sc)
             (if String.eqb (sc_src sc) "" then sc_src created else sc_src sc)
             (if String.eqb (sc_src sc) "" then sc_text sc else sc_text created) in
  parent <- gets (fun w => parentTag w sc) ;;
  match parent with
  | None => throw (TypeError "Cannot read properties of null (reading 'insertBefore')")
  | Some _ =>
      modify (fun w => set_parsed (replace_doc sc script (parsed w))
                         (set_document (replace_doc sc script (document w)) w))
  end.

Definition runScripts (scs : list ScriptEl) : M unit :=
  forEach (fun sc =>
    parent <- gets (fun w => parentTag w sc) ;;
    match parent with
    | None => throw (TypeError "Cannot read properties of null (reading 'tagName')")
    | Some tagName =>
        if String.eqb tagName "HEAD" then loadHeadScripts sc
        else if String.eqb tagName "BODY" then loadBodyScripts sc
        else ret tt
    end) scs.

Definition clear : M unit :=
  stored <- gets scriptsStore ;;
  forEach (fun sc => modify (detach sc)) stored.

Definition console_error (msg : string) : M unit := emit (ConsoleError msg).

(** The function [navigate] passes to [then]. *)
Definition navigate_then (url : string) (htmlString : PageValue) : M unit :=
  parseHTML htmlString ;;
  clear ;;
  loadHTML ;;
  current <- gets (fun w => scripts (document w)) ;;
  loaded <- gets (fun w => scripts (parsed w)) ;;
  runScripts (current ++ loaded) ;;
  enableSPA ;;
  document_title <- gets (fun w => title (document w)) ;;
  pushState (StateObject (Some url)) document_title url.

(** The function [navigate] passes to [catch]. *)
Definition navigate_catch (error : JsError) : M unit :=
  console_error
    ("There has been a problem with your fetch operation: " ++ message error)%string.

(** [navigate(url)], with the answer [net] of the network to its fetch.
    The handlers run as soon as the promise settles. *)
Definition navigate (url : NavInput) (net : FetchOutcome) : M unit :=
  match url with
  | LinkEvent _ => emit PreventDefault
  | Path _ => ret tt
  | Undefined => throw (TypeError "Cannot read properties of undefined (reading 'target')")
  end ;;
  url <- getUrl url ;;
  page <- getPage url net ;;
  rendered <- then_ page (navigate_then url) ;;
  catch_ rendered navigate_catch ;;
  ret tt.

(** The listener [addRouteListener] installs:
    [event => this.navigate(event.state.url)]. *)
Definition onpopstate (state : HistoryState) (net : FetchOutcome) : M unit :=
  match state with
  | StateNull => throw (TypeError "Cannot read properties of null (reading 'url')")
  | StateObject None => navigate Undefined net
  | StateObject (Some p) => navigate (Path p) net
  end.

Definition addRouteListener : M unit := modify (set_popstate_listener true).

Definition initialize : M unit :=
  addRouteListener ;;
  enableSPA ;;
  path <- gets location_pathname ;;
  document_title <- gets (fun w => title (document w)) ;;
  pushState (StateObject (Some path)) document_title path.

Definition constructor (options : Options) : M unit :=
  modify (set_routes (opt_routes options)) ;;
  if opt_enabled options then
    modify (set_scriptsStore []) ;;
    (present <- gets (fun w => scripts (document w)) ;;
     modify (set_initialScripts present)) ;;
    initialize
  else ret tt.

(** The browser moves to entry [i] of the session history (Back, Forward)
    and fires [popstate] with the state of that entry. *)
Definition history_go (i : nat) (net : FetchOutcome) : M unit :=
  target <- gets (fun w => nth_error (entries w) i) ;;
  match target with
  | None => ret tt
  | Some e =>
      modify (fun w => set_location_pathname (h_url e) (set_history (entries w) i w)) ;;
      listening <- gets popstate_listener ;;
      if listening then onpopstate (h_state e) net else ret tt
  end.

(** The methods of an enabled router and the events it listens to. *)
Inductive Op :=
| OpNavigate (url : NavInput) (net : FetchOutcome)
| OpHistoryGo (i : nat) (net : FetchOutcome)
| OpGetPage (url : string) (net : FetchOutcome)
| OpParseHTML (html : PageValue)
| OpLoadHTML
| OpRunScripts (scs : list ScriptEl)
| OpLoadHeadScripts (sc : ScriptEl)
| OpLoadBodyScripts (sc : ScriptEl)
| OpClear
| OpEnableSPA.

Definition exec (op : Op) : M unit :=
  match op with
  | OpNavigate url net => navigate url net
  | OpHistoryGo i net => history_go i net
  | OpGetPage url net => getPage url net ;; ret tt
  | OpParseHTML html => parseHTML html
  | OpLoadHTML => loadHTML
  | OpRunScripts scs => runScripts scs
  | OpLoadHeadScripts sc => loadHeadScripts sc
  | OpLoadBodyScripts sc => loadBodyScripts sc
  | OpClear => clear
  | OpEnableSPA => enableSPA
  end.

(** The world after a sequence of operations; one that throws leaves the
    mutations it made. *)
Definition exec_all (ops : list Op) (w : World) : World :=
  fold_left (fun acc op => snd (exec op acc)) ops w.

(** The worlds an enabled router can be in: [new Router(options)] on some
    page, then any operations. *)
Inductive reachable : World -> Prop :=
| reach_new (options : Options) (page : World) :
    opt_enabled options = true -> reachable (snd (constructor options page))
| reach_step (op : Op) (w : World) :
    reachable w -> reachable (snd (exec op w)).

(** The world after [history.pushState({url}, document.title, url)]. *)
Definition pushed (url : string) (w : World) : World :=
  let kept := firstn (S (index w)) (entries w) in
  set_location_pathname url
    (set_history (kept ++ [mkEntry (StateObject (Some url)) (title (document w)) url])
                 (length kept) w).

(** The fetch of a navigation fails: no response at all, or a response
    whose status is outside 200-299.  [e] is the error of the failure. *)
Inductive fetch_fails : FetchOutcome -> JsError -> Prop :=
| fails_network (e : JsError) : fetch_fails (FetchRejects e) e
| fails_status (r : Response) :
    ok r = false ->
    fetch_fails (FetchResolves r) (mkError (statusText r) (Some (status r)) (Some r)).

(** The path a navigation asks for, when its argument has one. *)
Definition requested_path (url : NavInput) : option string :=
  match url with
  | Undefined => None
  | Path p => Some p
  | LinkEvent link => Some (pathname link)
  end.

(** What [navigate] does to its argument before the fetch. *)
Definition input_effects (url : NavInput) : list Effect :=
  match url with
  | LinkEvent _ => [PreventDefault]
  | _ => []
  end.

(** Identity of a head script as C4 words it: the source URL for an
    external script, the text for an inline one. *)
Definition same_identity (sc entry : ScriptEl) : bool :=
  if String.eqb (sc_src sc) "" then String.eqb (sc_text entry) (sc_text sc)
  else String.eqb (sc_src entry) (sc_src sc).

(** What [isNotInitialScript] looks for in the snapshot: an entry with the
    source of [sc], and an entry with the text of [sc]. *)
Definition known_source_and_text (initial : list ScriptEl) (sc : ScriptEl) : Prop :=
  (exists i, In i initial /\ sc_src i = sc_src sc) /\
  (exists j, In j initial /\ sc_text j = sc_text sc).

(** The element [loadBodyScripts] builds for [sc] when [id] is the next
    free identity. *)
Definition rebuilt (id : nat) (sc : ScriptEl) : ScriptEl :=
  mkScript id
           (if String.eqb (sc_type sc) "" then "text/javascript" else sc_type sc)
           (sc_src sc)
           (if String.eqb (sc_src sc) "" then sc_text sc else "").

(** Eligibility as C1 words it: the patterns are tried on the path of the
    current document. *)
Definition eligible_on_document_path (w : World) (link : LinkEl) : Completion bool :=
  cbind (findIndex (fun route => RegExp_test (replace_first_star route) (location_pathname w))
                   (routes w) 0%Z)
        (fun i => Normal (negb (Z.lnot i =? 0)%Z
                          && negb (hasOwnProperty (ln_dataset link) "noSpa"))).

(** ** Notions used in the statements *)

(** [preserves R m]: the world after [m], thrown or not, is [R]-related
    to the world before. *)
Definition preserves (R : World -> World -> Prop) {A} (m : M A) : Prop :=
  forall w, R w (snd (m w)).

(** The registry only grows, by scripts that are not initial ones. *)
Definition registry_step (w w' : World) : Prop :=
  initialScripts w' = initialScripts w /\
  exists more, scriptsStore w' = scriptsStore w ++ more /\
               forall sc, In sc more -> ~ In sc (initialScripts w).

(** The steps of a render leave history, console and options alone. *)
Definition render_frame (w w' : World) : Prop :=
  entries w' = entries w /\ index w' = index w /\
  location_pathname w' = location_pathname w /\
  console_errors (trace w') = console_errors (trace w) /\
  routes w' = routes w /\ popstate_listener w' = popstate_listener w.

(** A computation that keeps the render frame and, when it returns, ends
    with the push of [url]. *)
Definition then_pushes (url : string) (m : M unit) : Prop :=
  forall w,
    match m w with
    | (Normal _, w') => exists wb, render_frame w wb /\ w' = pushed url wb
    | (Throw _, w') => render_frame w w'
    end.

(** The same world with an empty trace. *)
Definition untraced (w : World) : World := set_trace [] w.

(** [m] does to a world what it does to the same world with an empty
    trace, and appends its effects to the trace it finds. *)
Definition trace_blind {A} (m : M A) : Prop :=
  forall w,
    m w = (fst (m (untraced w)),
           set_trace (trace w ++ trace (snd (m (untraced w)))) (snd (m (untraced w)))).

(** Every script of [l] leaves the forest. *)
Definition fremove_all (l : list ScriptEl) (f : Forest) : Forest :=
  fold_left (fun acc x => fremove x acc) l f.

(** [x] is one of [l]. *)
Definition among (l : list ScriptEl) (x : ScriptEl) : bool :=
  existsb (fun y => ScriptEl_eqb y x) l.

(** Every script of [l] leaves the document. *)
Definition detach_all_doc (l : list ScriptEl) (d : Document) : Document :=
  mkDocument (fremove_all l (head d)) (fremove_all l (body d)) (title d).

(** No element of the forest has the tag of a head or of a body. *)
Fixpoint plain (f : Forest) : Prop :=
  match f with
  | FNil => True
  | FScript _ r => plain r
  | FLink _ k r => plain k /\ plain r
  | FElem t k r => t <> "HEAD" /\ t <> "BODY" /\ plain k /\ plain r
  end.

(** The children [f] of the body after one pass of [runScripts] over their
    scripts: each child script rebuilt, with the identities from [k] on;
    the scripts further down untouched. *)
Fixpoint rebuild_children (k : nat) (f : Forest) : Forest :=
  match f with
  | FNil => FNil
  | FScript s r => FScript (rebuilt k s) (rebuild_children (S k) r)
  | FLink l kd r => FLink l kd (rebuild_children k r)
  | FElem t kd r => FElem t kd (rebuild_children k r)
  end.

(** The number of scripts among the siblings [f]. *)
Fixpoint child_scripts (f : Forest) : nat :=
  match f with
  | FNil => 0
  | FScript _ r => S (child_scripts r)
  | FLink _ _ r => child_scripts r
  | FElem _ _ r => child_scripts r
  end.

(** The world after [loadHeadScripts] has injected [sc]. *)
Definition injected (sc : ScriptEl) (w : World) : World :=
  set_document
    (mkDocument (fapp (fremove sc (head (document w))) (FScript sc FNil))
                (fremove sc (body (document w))) (title (document w)))
    (set_parsed (detach_doc sc (parsed w))
       (set_scriptsStore (scriptsStore w ++ [sc]) w)).

(** What a pass of [runScripts] over scripts of the two heads keeps: the
    two bodies, the allocation counter, plain heads, and the scripts [hs]
    that the two heads hold together. *)
Definition head_pass_inv (b pb : Forest) (k : nat) (hs : list ScriptEl) (w : World) : Prop :=
  body (document w) = b /\ body (parsed w) = pb /\ next_id w = k
  /\ plain (head (document w)) /\ plain (head (parsed w))
  /\ forall s, In s (scripts_of (head (document w)) ++ scripts_of (head (parsed w)))
               <-> In s hs.

(** Script processing leaves the title, the links and the trace alone. *)
Definition script_frame (w w' : World) : Prop :=
  title (document w') = title (document w) /\
  links (document w') = links (document w) /\
  trace w' = trace w.

(** The options, the snapshot and the listener stay as the constructor
    left them. *)
Definition config_frame (w w' : World) : Prop :=
  routes w' = routes w /\ initialScripts w' = initialScripts w /\
  popstate_listener w' = popstate_listener w.

(** A history entry whose state is an object with the url of the entry. *)
Definition carries_url (e : HistoryEntry) : Prop :=
  h_state e = StateObject (Some (h_url e)).

(** Every entry of the history after is an entry of the history before or
    carries its url. *)
Definition history_step (w w' : World) : Prop :=
  forall e, In e (entries w') -> In e (entries w) \/ carries_url e.

(** The current entry exists and its url is the path of the location. *)
Definition at_current_entry (w : World) : Prop :=
  exists e, nth_error (entries w) (index w) = Some e /\ h_url e = location_pathname w.

(** The trace only grows. *)
Definition trace_step (w w' : World) : Prop :=
  exists added, trace w' = trace w ++ added.

(** The path with its letters in upper case. *)
Fixpoint upper (s : string) : string :=
  match s with
  | EmptyString => EmptyString
  | String c r => String (canonicalize c) (upper r)
  end.

(** [keeps P]: the step from a world with [P] leads to a world with [P]. *)
Definition keeps (P : World -> Prop) (w w' : World) : Prop := P w -> P w'.

(** The world after the first three steps of a render,
    [parseHTML(html)], [clear()] and [loadHTML($html)]. *)
Definition after_swap (v : PageValue) (w : World) : World :=
  let d := DOMParser_parse (to_html_string v) in
  let k := next_id w in
  let stored := scriptsStore w in
  set_parsed (mkDocument (fremove_all stored (shift_ids k (head d))) FNil (title d))
    (set_document
       (mkDocument (fremove_all stored (head (document w)))
                   (fremove_all stored (shift_ids k (body d))) (title d))
       (set_next_id (k + Nat.max (id_bound (head d)) (id_bound (body d))) w)).

(** The value [getPage] resolves with for an ok response. *)
Definition page_value (r : Response) : PageValue :=
  match text_body r with
  | Some s => PageText s
  | None => PageResponse r
  end.

(** The registry only grows, by scripts the snapshot does not know by
    source and text. *)
Definition unknown_step (w w' : World) : Prop :=
  initialScripts w' = initialScripts w /\
  exists more, scriptsStore w' = scriptsStore w ++ more /\
               forall sc, In sc more -> ~ known_source_and_text (initialScripts w) sc.

(** An atom with its letter in upper case. *)
Definition upper_atom (a : Fragment.Atom) : Fragment.Atom :=
  match a with
  | Fragment.Lit c => Fragment.Lit (canonicalize c)
  | Fragment.AnyChar => Fragment.AnyChar
  end.

(** * Properties *)

(** ** Equality of script objects and the shape of a forest *)

Lemma ScriptEl_eqb_eq (a b : ScriptEl) : ScriptEl_eqb a b = true <-> a = b.
Proof.
  destruct a as [i1 t1 s1 x1], b as [i2 t2 s2 x2]; unfold ScriptEl_eqb; simpl.
  rewrite !andb_true_iff, Nat.eqb_eq, !String.eqb_eq.
  split.
  - intros [[[-> ->] ->] ->]; reflexivity.
  - intros E; inversion E; auto.
Qed.

Lemma ScriptEl_eqb_refl (a : ScriptEl) : ScriptEl_eqb a a = true.
Proof. apply ScriptEl_eqb_eq; reflexivity. Qed.

Lemma ScriptEl_eqb_neq (a b : ScriptEl) : ScriptEl_eqb a b = false <-> a <> b.
Proof.
  rewrite <- ScriptEl_eqb_eq. destruct (ScriptEl_eqb a b); split; congruence.
Qed.

Lemma scripts_of_fapp (f g : Forest) :
  scripts_of (fapp f g) = scripts_of f ++ scripts_of g.
Proof.
  induction f; simpl; rewrite ?IHf2, ?IHf, ?app_assoc; reflexivity.
Qed.

Lemma scripts_of_fremove (x : ScriptEl) (f : Forest) :
  scripts_of (fremove x f)
  = filter (fun s => negb (ScriptEl_eqb x s)) (scripts_of f).
Proof.
  induction f as [|s r IH|l k IHk r IHr|t k IHk r IHr]; simpl.
  - reflexivity.
  - destruct (ScriptEl_eqb x s); simpl; rewrite IH; reflexivity.
  - rewrite filter_app, IHk, IHr; reflexivity.
  - rewrite filter_app, IHk, IHr; reflexivity.
Qed.

Lemma fremove_absent (x : ScriptEl) (f : Forest) :
  ~ In x (scripts_of f) -> fremove x f = f.
Proof.
  induction f as [|s r IH|l k IHk r IHr|t k IHk r IHr]; simpl; intros H.
  - reflexivity.
  - destruct (ScriptEl_eqb x s) eqn:E.
    + apply ScriptEl_eqb_eq in E; subst; taut.
    + rewrite IH; taut.
  - rewrite in_app_iff in H; rewrite IHk, IHr; taut.
  - rewrite in_app_iff in H; rewrite IHk, IHr; taut.
Qed.

Lemma links_of_fremove (x : ScriptEl) (f : Forest) :
  links_of (fremove x f) = links_of f.
Proof.
  induction f as [|s r IH|l k IHk r IHr|t k IHk r IHr]; simpl;
    try destruct (ScriptEl_eqb x s); simpl; congruence.
Qed.

(** ** getPage *)

(** C10.  An ok response whose body cannot be decoded makes [getPage]
    resolve with the response object; [getPage] never throws, it rejects
    exactly when the fetch rejects (with the error of the fetch) or the
    status is outside 200-299, and in the latter case the error carries
    the status code, the status text and the response. *)
Theorem getPage_outcomes (url : string) (w : World) :
  (forall r, ok r = true -> text_body r = None ->
     fst (getPage url (FetchResolves r) w) = Normal (Resolved (PageResponse r)))
  /\ (forall r s, ok r = true -> text_body r = Some s ->
     fst (getPage url (FetchResolves r) w) = Normal (Resolved (PageText s)))
  /\ (forall net e, fst (getPage url net w) = Normal (Rejected e) <->
        net = FetchRejects e \/
        exists r, net = FetchResolves r /\ ok r = false /\
                  e = mkError (statusText r) (Some (status r)) (Some r))
  /\ (forall net, exists p, fst (getPage url net w) = Normal p).
Proof.
  unfold getPage, fetch, then_promise, response_text, bind, emit, modify, ret, throw.
  repeat split.
  - intros r Hok Ht; simpl. rewrite Hok, Ht. reflexivity.
  - intros r s Hok Ht; simpl. rewrite Hok, Ht. reflexivity.
  - destruct net as [e'|r]; simpl.
    + intros E; left; congruence.
    + destruct (ok r) eqn:Hok; [destruct (text_body r); discriminate|].
      intros E; right; exists r; inversion E; auto.
  - intros [E|(r & E & Hok & He)]; subst net; simpl.
    + reflexivity.
    + rewrite Hok; subst e; reflexivity.
  - intros net; destruct net as [e|r]; simpl.
    + eexists; reflexivity.
    + destruct (ok r); [destruct (text_body r)|]; eexists; reflexivity.
Qed.

(** ** Framing: what a computation leaves related *)

Section Preserves.
Context (R : World -> World -> Prop) `{PreOrder World R}.

Lemma preserves_ret {A} (a : A) : preserves R (ret a).
Proof. intros w; simpl; reflexivity. Qed.

Lemma preserves_throw {A} (e : JsError) : preserves R (@throw A e).
Proof. intros w; simpl; reflexivity. Qed.

Lemma preserves_gets {A} (f : World -> A) : preserves R (gets f).
Proof. intros w; simpl; reflexivity. Qed.

Lemma preserves_lift {A} (c : Completion A) : preserves R (lift c).
Proof. intros w; simpl; reflexivity. Qed.

Lemma preserves_bind {A B} (m : M A) (k : A -> M B) :
  preserves R m -> (forall a, preserves R (k a)) -> preserves R (bind m k).
Proof.
  intros Hm Hk w. unfold bind. specialize (Hm w).
  destruct (m w) as [[a|e] w1]; simpl in *.
  - etransitivity; [exact Hm | apply Hk].
  - exact Hm.
Qed.

Lemma preserves_forEach {A} (f : A -> M unit) (l : list A) :
  (forall a, preserves R (f a)) -> preserves R (forEach f l).
Proof.
  intros Hf; induction l as [|a l IH]; simpl.
  - apply preserves_ret.
  - apply preserves_bind; auto.
Qed.

Lemma preserves_then {A B} (p : Settled A) (h : A -> M B) :
  (forall a, preserves R (h a)) -> preserves R (then_ p h).
Proof.
  intros Hh w. unfold then_. destruct p as [a|e]; simpl; [|reflexivity].
  specialize (Hh a w). destruct (h a w) as [[b|e] w1]; exact Hh.
Qed.

Lemma preserves_then_promise {A B} (p : Settled A) (h : A -> M (Settled B)) :
  (forall a, preserves R (h a)) -> preserves R (then_promise p h).
Proof.
  intros Hh w. unfold then_promise. destruct p as [a|e]; simpl; [|reflexivity].
  specialize (Hh a w). destruct (h a w) as [[b|e] w1]; exact Hh.
Qed.

Lemma preserves_catch {A} (p : Settled A) (h : JsError -> M A) :
  (forall e, preserves R (h e)) -> preserves R (catch_ p h).
Proof.
  intros Hh w. unfold catch_. destruct p as [a|e]; simpl; [reflexivity|].
  specialize (Hh e w). destruct (h e w) as [[b|e'] w1]; exact Hh.
Qed.

End Preserves.

Lemma preserves_modify (R : World -> World -> Prop) (f : World -> World) :
  (forall w, R w (f w)) -> preserves R (modify f).
Proof. intros Hf w; apply Hf. Qed.

#[local] Instance registry_step_preorder : PreOrder registry_step.
Proof.
  split.
  - intros w; split; [reflexivity|]. exists []; rewrite app_nil_r; split; [reflexivity|].
    intros sc [].
  - intros a b c [Ei1 (m1 & E1 & H1)] [Ei2 (m2 & E2 & H2)].
    split; [congruence|]. exists (m1 ++ m2).
    rewrite E2, E1, app_assoc; split; [reflexivity|].
    intros sc Hin; apply in_app_or in Hin as [Hin|Hin]; [auto|].
    rewrite <- Ei1; auto.
Qed.

Lemma registry_step_same (w w' : World) :
  initialScripts w' = initialScripts w -> scriptsStore w' = scriptsStore w ->
  registry_step w w'.
Proof.
  intros Ei Es; split; [exact Ei|]. exists []; rewrite app_nil_r; split; [exact Es|].
  intros sc [].
Qed.

#[local] Instance render_frame_preorder : PreOrder render_frame.
Proof.
  split.
  - intros w; repeat split.
  - intros a b c (A1 & A2 & A3 & A4 & A5 & A6) (B1 & B2 & B3 & B4 & B5 & B6).
    repeat split; congruence.
Qed.

Lemma console_errors_app (t u : list Effect) :
  console_errors (t ++ u) = console_errors t ++ console_errors u.
Proof.
  induction t as [|e t IH]; simpl; [reflexivity|].
  destruct e; simpl; rewrite IH; reflexivity.
Qed.

Lemma click_listeners_app (t u : list Effect) :
  click_listeners (t ++ u) = click_listeners t ++ click_listeners u.
Proof.
  induction t as [|e t IH]; simpl; [reflexivity|].
  destruct e; simpl; rewrite IH; reflexivity.
Qed.

Create HintDb frames.

(** Framing proofs follow the structure of the computation; [leaf] closes
    the obligations of the state updates. *)
Ltac frame_with leaf :=
  repeat first
    [ solve [auto with frames]
    | apply preserves_ret; exact _
    | apply preserves_throw; exact _
    | apply preserves_gets; exact _
    | apply preserves_lift; exact _
    | apply preserves_modify; intros ?; leaf
    | apply preserves_bind; [exact _| |intros ?]
    | apply preserves_forEach; [exact _|intros ?]
    | apply preserves_then; [exact _|intros ?]
    | apply preserves_then_promise; [exact _|intros ?]
    | apply preserves_catch; [exact _|intros ?]
    | match goal with
      | |- preserves _ (if ?b then _ else _) => destruct b
      | |- preserves _ (match ?x with _ => _ end) => destruct x
      end ].

Ltac registry_leaf := solve [apply registry_step_same; reflexivity].

Ltac render_leaf :=
  solve [repeat split; simpl; rewrite ?console_errors_app; simpl;
         rewrite ?app_nil_r; reflexivity].

Lemma registry_emit (e : Effect) : preserves registry_step (emit e).
Proof. unfold emit. frame_with registry_leaf. Qed.

Lemma registry_pushState (st : HistoryState) (t url : string) :
  preserves registry_step (pushState st t url).
Proof. unfold pushState. frame_with registry_leaf. Qed.

Lemma registry_parseHTML (v : PageValue) : preserves registry_step (parseHTML v).
Proof. unfold parseHTML. frame_with registry_leaf. Qed.

Lemma registry_loadHTML : preserves registry_step loadHTML.
Proof. unfold loadHTML. frame_with registry_leaf. Qed.

Lemma registry_clear : preserves registry_step clear.
Proof. unfold clear. frame_with registry_leaf. Qed.

Lemma registry_enableSPA : preserves registry_step enableSPA.
Proof. unfold enableSPA, emit. frame_with registry_leaf. Qed.

Lemma registry_loadBodyScripts (sc : ScriptEl) :
  preserves registry_step (loadBodyScripts sc).
Proof. unfold loadBodyScripts, createElement_script. frame_with registry_leaf. Qed.

(** A script that [isNotInitialScript] accepts is none of the initial ones:
    an initial script has its own source and its own text. *)
Lemma isNotInitialScript_not_initial (sc : ScriptEl) (initial : list ScriptEl) :
  negb (existsb (fun init => String.eqb (sc_src init) (sc_src sc)) initial)
  || negb (existsb (fun init => String.eqb (sc_text init) (sc_text sc)) initial) = true ->
  ~ In sc initial.
Proof.
  intros H Hin.
  assert (E1 : existsb (fun init => String.eqb (sc_src init) (sc_src sc)) initial = true)
    by (apply existsb_exists; exists sc; split; [exact Hin | apply String.eqb_refl]).
  assert (E2 : existsb (fun init => String.eqb (sc_text init) (sc_text sc)) initial = true)
    by (apply existsb_exists; exists sc; split; [exact Hin | apply String.eqb_refl]).
  rewrite E1, E2 in H; discriminate.
Qed.

Lemma registry_loadHeadScripts (sc : ScriptEl) :
  preserves registry_step (loadHeadScripts sc).
Proof.
  intros w. unfold loadHeadScripts, isNotInitialScript, appendChild_head, bind, gets, ret, modify.
  simpl.
  destruct (negb (existsb _ (initialScripts w)) || negb (existsb _ (initialScripts w))) eqn:E;
    simpl.
  - split; [reflexivity|]. exists [sc]; split; [reflexivity|].
    intros x [<-|[]]. apply isNotInitialScript_not_initial; exact E.
  - reflexivity.
Qed.

#[local] Hint Resolve registry_emit registry_pushState registry_parseHTML registry_loadHTML
  registry_clear registry_enableSPA registry_loadBodyScripts registry_loadHeadScripts : frames.

Lemma registry_runScripts (scs : list ScriptEl) : preserves registry_step (runScripts scs).
Proof. unfold runScripts. frame_with registry_leaf. Qed.

Lemma registry_getPage (url : string) (net : FetchOutcome) :
  preserves registry_step (getPage url net).
Proof. unfold getPage, fetch. frame_with registry_leaf. Qed.

#[local] Hint Resolve registry_runScripts registry_getPage : frames.

Lemma registry_navigate (url : NavInput) (net : FetchOutcome) :
  preserves registry_step (navigate url net).
Proof.
  unfold navigate, navigate_then, navigate_catch, getUrl, console_error.
  frame_with registry_leaf.
Qed.

#[local] Hint Resolve registry_navigate : frames.

Lemma registry_onpopstate (st : HistoryState) (net : FetchOutcome) :
  preserves registry_step (onpopstate st net).
Proof. unfold onpopstate. frame_with registry_leaf. Qed.

#[local] Hint Resolve registry_onpopstate : frames.

Lemma registry_history_go (i : nat) (net : FetchOutcome) :
  preserves registry_step (history_go i net).
Proof. unfold history_go. frame_with registry_leaf. Qed.

#[local] Hint Resolve registry_history_go : frames.

Lemma render_emit_listener (l : LinkEl) : preserves render_frame (emit (ClickListener l)).
Proof. unfold emit. frame_with render_leaf. Qed.

Lemma render_parseHTML (v : PageValue) : preserves render_frame (parseHTML v).
Proof. unfold parseHTML. frame_with render_leaf. Qed.

Lemma render_loadHTML : preserves render_frame loadHTML.
Proof. unfold loadHTML. frame_with render_leaf. Qed.

Lemma render_clear : preserves render_frame clear.
Proof. unfold clear. frame_with render_leaf. Qed.

#[local] Hint Resolve render_emit_listener render_parseHTML render_loadHTML render_clear : frames.

Lemma render_enableSPA : preserves render_frame enableSPA.
Proof. unfold enableSPA. frame_with render_leaf. Qed.

Lemma render_loadBodyScripts (sc : ScriptEl) : preserves render_frame (loadBodyScripts sc).
Proof. unfold loadBodyScripts, createElement_script. frame_with render_leaf. Qed.

Lemma render_loadHeadScripts (sc : ScriptEl) : preserves render_frame (loadHeadScripts sc).
Proof. unfold loadHeadScripts, isNotInitialScript, appendChild_head. frame_with render_leaf. Qed.

#[local] Hint Resolve render_enableSPA render_loadBodyScripts render_loadHeadScripts : frames.

Lemma render_runScripts (scs : list ScriptEl) : preserves render_frame (runScripts scs).
Proof. unfold runScripts. frame_with render_leaf. Qed.

#[local] Hint Resolve render_runScripts : frames.

(** ** The registry *)

Lemma forEach_modify {A} (f : A -> World -> World) (l : list A) (w : World) :
  forEach (fun a => modify (f a)) l w = (Normal tt, fold_left (fun acc a => f a acc) l w).
Proof.
  revert w; induction l as [|a l IH]; intros w; simpl; [reflexivity|].
  unfold bind, modify at 1. apply IH.
Qed.

Lemma clear_run (w : World) :
  clear w = (Normal tt, fold_left (fun acc sc => detach sc acc) (scriptsStore w) w).
Proof. unfold clear, bind, gets. apply forEach_modify. Qed.

Lemma scriptsStore_fold_detach (l : list ScriptEl) (w : World) :
  scriptsStore (fold_left (fun acc sc => detach sc acc) l w) = scriptsStore w.
Proof.
  revert w; induction l as [|a l IH]; intros w; simpl; [reflexivity|].
  rewrite IH; reflexivity.
Qed.

Lemma registry_exec (op : Op) : preserves registry_step (exec op).
Proof. destruct op; simpl; frame_with registry_leaf. Qed.

Lemma registry_exec_all (ops : list Op) (w : World) : registry_step w (exec_all ops w).
Proof.
  unfold exec_all. revert w; induction ops as [|op ops IH]; intros w; simpl.
  - reflexivity.
  - etransitivity; [apply (registry_exec op w) | apply IH].
Qed.

(** C9.  Over every sequence of operations the registry keeps its entries,
    in place, and only gains new ones, so its length never decreases;
    [clear] detaches each stored element from the documents and leaves the
    registry as it was, so a later [clear] goes over every element ever
    stored. *)
Theorem scriptsStore_only_grows (ops : list Op) (w : World) :
  (exists more, scriptsStore (exec_all ops w) = scriptsStore w ++ more)
  /\ length (scriptsStore w) <= length (scriptsStore (exec_all ops w))
  /\ (forall sc, In sc (scriptsStore w) -> In sc (scriptsStore (exec_all ops w)))
  /\ clear w = (Normal tt, fold_left (fun acc sc => detach sc acc) (scriptsStore w) w)
  /\ scriptsStore (snd (clear w)) = scriptsStore w.
Proof.
  destruct (registry_exec_all ops w) as [_ (more & E & _)].
  repeat split.
  - exists more; exact E.
  - rewrite E, length_app; lia.
  - intros sc Hin; rewrite E; apply in_or_app; left; exact Hin.
  - apply clear_run.
  - rewrite clear_run; simpl. apply scriptsStore_fold_detach.
Qed.

(** ** navigate *)

Lemma getPage_run (url : string) (net : FetchOutcome) (w : World) :
  exists page,
    getPage url net w = (Normal page, set_trace (trace w ++ [FetchRequest url]) w) /\
    match net with
    | FetchRejects e => page = Rejected e
    | FetchResolves r =>
        if ok r then
          page = Resolved (match text_body r with
                           | Some s => PageText s
                           | None => PageResponse r
                           end)
        else page = Rejected (mkError (statusText r) (Some (status r)) (Some r))
    end.
Proof.
  unfold getPage, fetch, then_promise, response_text, bind, emit, modify, ret, throw.
  destruct net as [e|r]; simpl.
  - eexists; split; reflexivity.
  - destruct (ok r); [destruct (text_body r)|]; eexists; split; reflexivity.
Qed.

Lemma then_pushes_bind {A} (url : string) (m : M A) (k : A -> M unit) :
  preserves render_frame m -> (forall a, then_pushes url (k a)) ->
  then_pushes url (bind m k).
Proof.
  intros Hm Hk w. unfold bind. specialize (Hm w).
  destruct (m w) as [[a|e] w1]; simpl in *; [|exact Hm].
  specialize (Hk a w1). destruct (k a w1) as [[u|e] w2].
  - destruct Hk as (wb & Hr & E). exists wb; split; [etransitivity; eauto|exact E].
  - etransitivity; eauto.
Qed.

Lemma navigate_then_pushes (url : string) (v : PageValue) :
  then_pushes url (navigate_then url v).
Proof.
  unfold navigate_then.
  do 7 (apply then_pushes_bind; [frame_with render_leaf|intros ?]).
  intros w. exists w; split; reflexivity.
Qed.

(** [navigate] on a path or a link event, step by step: the request, then
    either the render and the push, or one diagnostic. *)
Lemma navigate_run (url : NavInput) (net : FetchOutcome) (w : World) (p : string)
      (pre : list Effect) :
  (url = Path p /\ pre = []) \/
  (exists l, url = LinkEvent l /\ p = pathname l /\ pre = [PreventDefault]) ->
  exists page,
    getPage p net (set_trace (trace w ++ pre) w)
    = (Normal page, set_trace (trace w ++ pre ++ [FetchRequest p]) w) /\
    navigate url net w =
    match page with
    | Rejected e =>
        (Normal tt,
         set_trace (trace w ++ pre ++ [FetchRequest p; ConsoleError
           ("There has been a problem with your fetch operation: " ++ message e)%string]) w)
    | Resolved v =>
        match navigate_then p v (set_trace (trace w ++ pre ++ [FetchRequest p]) w) with
        | (Normal _, w1) => (Normal tt, w1)
        | (Throw e, w1) =>
            (Normal tt,
             set_trace (trace w1 ++ [ConsoleError
               ("There has been a problem with your fetch operation: " ++ message e)%string]) w1)
        end
    end.
Proof.
  intros Hin.
  assert (E0 : forall t, set_trace t (set_trace (trace w ++ pre) w) = set_trace t w)
    by (intros; reflexivity).
  destruct (getPage_run p net (set_trace (trace w ++ pre) w)) as (page & Eg & _).
  simpl in Eg. rewrite <- app_assoc in Eg. rewrite E0 in Eg.
  exists page; split; [exact Eg|].
  assert (Hnav : navigate url net w =
    match getPage p net (set_trace (trace w ++ pre) w) with
    | (Normal pg, w0) =>
        bind (then_ pg (navigate_then p))
             (fun rendered => bind (catch_ rendered navigate_catch) (fun _ => ret tt)) w0
    | (Throw e, w0) => (Throw e, w0)
    end).
  { destruct Hin as [[-> ->]|(l & -> & -> & ->)].
    - unfold navigate, getUrl. unfold bind at 1 2 3, ret at 1 2. simpl.
      rewrite app_nil_r. destruct w; reflexivity.
    - unfold navigate, getUrl. unfold bind at 1 2 3, emit, modify, ret at 1. simpl.
      reflexivity. }
  rewrite Hnav, Eg. clear Hnav Eg.
  unfold bind, then_, catch_, navigate_catch, console_error, emit, modify, ret.
  destruct page as [v|e]; simpl.
  - destruct (navigate_then p v _) as [[u|e] w1]; simpl; [destruct u|]; reflexivity.
  - rewrite <- !app_assoc. reflexivity.
Qed.

(** *** No operation reads the trace *)

Lemma set_trace_untraced (w : World) : set_trace (trace w ++ []) (untraced w) = w.
Proof. rewrite app_nil_r. destruct w; reflexivity. Qed.

Lemma trace_blind_ret {A} (a : A) : trace_blind (ret a).
Proof. intros w; unfold ret; simpl. rewrite set_trace_untraced; reflexivity. Qed.

Lemma trace_blind_throw {A} (e : JsError) : trace_blind (@throw A e).
Proof. intros w; unfold throw; simpl. rewrite set_trace_untraced; reflexivity. Qed.

Lemma trace_blind_lift {A} (c : Completion A) : trace_blind (lift c).
Proof. intros w; unfold lift; simpl. rewrite set_trace_untraced; reflexivity. Qed.

Lemma trace_blind_gets {A} (f : World -> A) :
  (forall w, f (untraced w) = f w) -> trace_blind (gets f).
Proof.
  intros Hf w; unfold gets; simpl. rewrite Hf, set_trace_untraced; reflexivity.
Qed.

Lemma trace_blind_modify (f : World -> World) :
  (forall w, f w = set_trace (trace w ++ trace (f (untraced w))) (f (untraced w))) ->
  trace_blind (modify f).
Proof. intros Hf w; unfold modify; simpl. rewrite <- Hf; reflexivity. Qed.

Lemma trace_blind_bind {A B} (m : M A) (k : A -> M B) :
  trace_blind m -> (forall a, trace_blind (k a)) -> trace_blind (bind m k).
Proof.
  intros Hm Hk w. unfold bind.
  rewrite (Hm w). destruct (m (untraced w)) as [[a|e] w1]; simpl; [|reflexivity].
  rewrite (Hk a (set_trace _ w1)), (Hk a w1).
  replace (untraced (set_trace (trace w ++ trace w1) w1)) with (untraced w1)
    by reflexivity.
  destruct (k a (untraced w1)) as [c w2]; simpl.
  rewrite <- app_assoc. reflexivity.
Qed.

Lemma trace_blind_forEach {A} (f : A -> M unit) (l : list A) :
  (forall a, trace_blind (f a)) -> trace_blind (forEach f l).
Proof.
  intros Hf; induction l as [|a l IH]; simpl.
  - apply trace_blind_ret.
  - apply trace_blind_bind; auto.
Qed.

Lemma trace_blind_then {A B} (p : Settled A) (h : A -> M B) :
  (forall a, trace_blind (h a)) -> trace_blind (then_ p h).
Proof.
  intros Hh w. unfold then_. destruct p as [a|e]; simpl.
  - rewrite (Hh a w). destruct (h a (untraced w)) as [[b|e] w1]; reflexivity.
  - rewrite set_trace_untraced; reflexivity.
Qed.

Lemma trace_blind_then_promise {A B} (p : Settled A) (h : A -> M (Settled B)) :
  (forall a, trace_blind (h a)) -> trace_blind (then_promise p h).
Proof.
  intros Hh w. unfold then_promise. destruct p as [a|e]; simpl.
  - rewrite (Hh a w). destruct (h a (untraced w)) as [[b|e] w1]; reflexivity.
  - rewrite set_trace_untraced; reflexivity.
Qed.

Lemma trace_blind_catch {A} (p : Settled A) (h : JsError -> M A) :
  (forall e, trace_blind (h e)) -> trace_blind (catch_ p h).
Proof.
  intros Hh w. unfold catch_. destruct p as [a|e]; simpl.
  - rewrite set_trace_untraced; reflexivity.
  - rewrite (Hh e w). destruct (h e (untraced w)) as [[b|e'] w1]; reflexivity.
Qed.

Ltac blind :=
  repeat first
    [ apply trace_blind_ret | apply trace_blind_throw | apply trace_blind_lift
    | apply trace_blind_gets; intros []; reflexivity
    | apply trace_blind_modify; intros []; simpl; rewrite ?app_nil_r; reflexivity
    | apply trace_blind_bind; [|intros ?]
    | apply trace_blind_forEach; intros ?
    | apply trace_blind_then; intros ?
    | apply trace_blind_then_promise; intros ?
    | apply trace_blind_catch; intros ?
    | match goal with
      | |- trace_blind (if ?b then _ else _) => destruct b
      | |- trace_blind (match ?x with _ => _ end) => destruct x
      end ].

Lemma trace_blind_navigate (url : NavInput) (net : FetchOutcome) :
  trace_blind (navigate url net).
Proof.
  unfold navigate, navigate_then, navigate_catch, console_error, getUrl, getPage, fetch,
    parseHTML, clear, loadHTML, runScripts, enableSPA, pushState, loadHeadScripts,
    loadBodyScripts, isNotInitialScript, appendChild_head, createElement_script, emit.
  blind.
Qed.

(** A navigation runs alike on two worlds that differ in their traces. *)
Lemma navigate_after_effects (url : NavInput) (net : FetchOutcome) (w : World)
      (t : list Effect) :
  fst (navigate url net (set_trace t w)) = fst (navigate url net w) /\
  exists added,
    trace (snd (navigate url net w)) = trace w ++ added /\
    snd (navigate url net (set_trace t w)) = set_trace (t ++ added) (snd (navigate url net w)).
Proof.
  rewrite (trace_blind_navigate url net w), (trace_blind_navigate url net (set_trace t w)).
  replace (untraced (set_trace t w)) with (untraced w) by reflexivity.
  destruct (navigate url net (untraced w)) as [c w1]; simpl.
  split; [reflexivity|]. exists (trace w1). split; [destruct w1; reflexivity|].
  destruct w1; reflexivity.
Qed.

(** C3, amended.  When the fetch of a navigation fails, [navigate] returns
    normally and the world is the one before except for its trace: the
    request and one console diagnostic.  So the document, its title, the
    registry and the history are untouched.  The diagnostic carries the
    message of the error, which for a response outside 200-299 is its
    status text; the status code is on the error object, not in the
    diagnostic.  The next navigation runs as it would have without the
    failed one. *)
Theorem navigate_fetch_failure (url : NavInput) (p : string) (net : FetchOutcome)
        (e : JsError) (w : World) :
  requested_path url = Some p -> fetch_fails net e ->
  let diagnostic :=
    ("There has been a problem with your fetch operation: " ++ message e)%string in
  let w' :=
    set_trace (trace w ++ input_effects url ++ [FetchRequest p; ConsoleError diagnostic]) w in
  navigate url net w = (Normal tt, w')
  /\ (forall r, net = FetchResolves r ->
        message e = statusText r /\ err_status e = Some (status r))
  /\ (forall url2 net2,
        fst (navigate url2 net2 w') = fst (navigate url2 net2 w) /\
        exists added,
          trace (snd (navigate url2 net2 w)) = trace w ++ added /\
          snd (navigate url2 net2 w')
          = set_trace (trace w' ++ added) (snd (navigate url2 net2 w))).
Proof.
  intros Hp Hf diagnostic w'.
  split; [|split].
  - destruct (navigate_run url net w p (input_effects url)) as (page & Eg & En).
    { destruct url as [|q|l]; simpl in *; [discriminate| |].
      - left; inversion Hp; auto.
      - right; exists l; inversion Hp; auto. }
    assert (Hpage : page = Rejected e).
    { destruct (getPage_run p net (set_trace (trace w ++ input_effects url) w))
        as (page' & Eg' & Hpage).
      rewrite Eg in Eg'. inversion Eg'; subst page'.
      inversion Hf; subst; simpl in Hpage; [exact Hpage|].
      rewrite H in Hpage; exact Hpage. }
    rewrite En, Hpage. reflexivity.
  - intros r ->. inversion Hf; subst; auto.
  - intros url2 net2. apply (navigate_after_effects url2 net2 w).
Qed.

(** C5, amended.  The listener runs [navigate] on the url of the state,
    history push included: it returns normally and either nothing is logged
    and a new entry for the url is pushed after the current one, or one
    diagnostic is logged and the history is as before. *)
Theorem onpopstate_is_navigate (p : string) (net : FetchOutcome) (w : World) :
  onpopstate (StateObject (Some p)) net w = navigate (Path p) net w
  /\ fst (onpopstate (StateObject (Some p)) net w) = Normal tt
  /\ let w' := snd (onpopstate (StateObject (Some p)) net w) in
     (console_errors (trace w') = console_errors (trace w)
      /\ entries w' = firstn (S (index w)) (entries w)
                      ++ [mkEntry (StateObject (Some p)) (title (document w')) p]
      /\ index w' = length (firstn (S (index w)) (entries w))
      /\ location_pathname w' = p)
     \/ (exists msg, console_errors (trace w') = console_errors (trace w) ++ [msg]
         /\ entries w' = entries w /\ index w' = index w
         /\ location_pathname w' = location_pathname w).
Proof.
  split; [reflexivity|]. unfold onpopstate.
  destruct (navigate_run (Path p) net w p []) as (page & _ & En); [left; auto|].
  rewrite En; clear En. simpl.
  destruct page as [v|e].
  - pose proof (navigate_then_pushes p v (set_trace (trace w ++ [FetchRequest p]) w)) as Hn.
    destruct (navigate_then p v _) as [[u|e] w1]; simpl.
    + split; [reflexivity|]. left.
      destruct Hn as (wb & (E1 & E2 & E3 & E4 & _) & ->). simpl in *.
      rewrite E1, E2, E4, console_errors_app; simpl. rewrite app_nil_r. auto.
    + split; [reflexivity|]. right.
      destruct Hn as (E1 & E2 & E3 & E4 & _). simpl in *.
      eexists. rewrite console_errors_app, E4, console_errors_app; simpl.
      rewrite app_nil_r. auto.
  - split; [reflexivity|]. right. simpl.
    eexists. rewrite console_errors_app; simpl. auto.
Qed.

(** C6.  The listener is not guarded: on a state that is [null], or that
    has no [url], it throws out of the event handler, before any promise
    exists to catch it, and nothing is logged.  So does the move to any
    history entry with a [null] state once the listener is attached. *)
Theorem onpopstate_unguarded (net : FetchOutcome) (w : World) :
  (exists e, onpopstate StateNull net w = (Throw e, w))
  /\ (exists e, onpopstate (StateObject None) net w = (Throw e, w))
  /\ (forall i entry,
        nth_error (entries w) i = Some entry -> h_state entry = StateNull ->
        popstate_listener w = true ->
        exists e w', history_go i net w = (Throw e, w') /\ trace w' = trace w).
Proof.
  split; [|split].
  - eexists; reflexivity.
  - eexists; reflexivity.
  - intros i entry Hn Hs Hl.
    unfold history_go, bind, gets, modify; simpl. rewrite Hn, Hl, Hs; simpl.
    eexists; eexists; split; reflexivity.
Qed.

(** ** clear *)

Lemma among_In (l : list ScriptEl) (x : ScriptEl) : among l x = true <-> In x l.
Proof.
  unfold among. rewrite existsb_exists. split.
  - intros (y & Hy & E). apply ScriptEl_eqb_eq in E; subst; exact Hy.
  - intros H; exists x; split; [exact H|apply ScriptEl_eqb_refl].
Qed.

Lemma filter_filter {A} (f g : A -> bool) (l : list A) :
  filter f (filter g l) = filter (fun x => g x && f x) l.
Proof.
  induction l as [|a l IH]; simpl; [reflexivity|].
  destruct (g a); simpl; [destruct (f a)|]; rewrite IH; reflexivity.
Qed.

Lemma scripts_of_fremove_all (l : list ScriptEl) (f : Forest) :
  scripts_of (fremove_all l f) = filter (fun s => negb (among l s)) (scripts_of f).
Proof.
  unfold fremove_all. revert f; induction l as [|a l IH]; intros f; simpl.
  - induction (scripts_of f) as [|s r IHr]; simpl; congruence.
  - rewrite IH, scripts_of_fremove, filter_filter.
    apply filter_ext; intros s. rewrite negb_orb; reflexivity.
Qed.

Lemma fremove_all_absent (l : list ScriptEl) (f : Forest) :
  (forall x, In x l -> ~ In x (scripts_of f)) -> fremove_all l f = f.
Proof.
  unfold fremove_all. induction l as [|a l IH]; intros H; simpl; [reflexivity|].
  rewrite fremove_absent by (apply H; left; reflexivity).
  apply IH; intros x Hx; apply H; right; exact Hx.
Qed.

Lemma fremove_all_idempotent (l : list ScriptEl) (f : Forest) :
  fremove_all l (fremove_all l f) = fremove_all l f.
Proof.
  apply fremove_all_absent. intros x Hx Hin.
  rewrite scripts_of_fremove_all in Hin. apply filter_In in Hin as [_ Hn].
  apply among_In in Hx. rewrite Hx in Hn; discriminate.
Qed.

Lemma fold_detach (l : list ScriptEl) (w : World) :
  fold_left (fun acc sc => detach sc acc) l w
  = set_parsed (detach_all_doc l (parsed w)) (set_document (detach_all_doc l (document w)) w).
Proof.
  revert w; induction l as [|a l IH]; intros w; simpl.
  - destruct w as [? ? ? [? ? ?] [? ? ?] ? ? ? ? ? ?]; reflexivity.
  - rewrite IH. reflexivity.
Qed.

Lemma registry_initialize : preserves registry_step initialize.
Proof. unfold initialize, addRouteListener. frame_with registry_leaf. Qed.

Lemma constructor_enabled (options : Options) (page : World) :
  opt_enabled options = true ->
  constructor options page
  = initialize (set_initialScripts (scripts (document page))
                  (set_scriptsStore [] (set_routes (opt_routes options) page))).
Proof. unfold constructor; intros ->. reflexivity. Qed.

(** The registry and the initial snapshot never share an element. *)
Lemma reachable_registry (w : World) :
  reachable w -> forall sc, In sc (scriptsStore w) -> ~ In sc (initialScripts w).
Proof.
  induction 1 as [options page Hen|op w Hr IH].
  - rewrite (constructor_enabled options page Hen).
    match goal with |- context [initialize ?w0] =>
      destruct (registry_initialize w0) as [Ei (more & Es & Hm)] end.
    intros sc Hin. rewrite Es in Hin. rewrite Ei. apply Hm; exact Hin.
  - destruct (registry_exec op w) as [Ei (more & Es & Hm)].
    intros sc Hin. rewrite Ei. rewrite Es in Hin.
    apply in_app_or in Hin as [Hin|Hin]; auto.
Qed.

(** C8.  After [clear], no script of the registry is left in the live
    document; the head keeps, in order, exactly its scripts that are not in
    the registry, the initial ones among them; and a second [clear] changes
    nothing. *)
Theorem clear_removes_injected_only (w : World) :
  reachable w ->
  let w' := snd (clear w) in
  fst (clear w) = Normal tt
  /\ (forall sc, In sc (scriptsStore w) -> ~ In sc (scripts (document w')))
  /\ scripts_of (head (document w'))
     = filter (fun s => negb (among (scriptsStore w) s)) (scripts_of (head (document w)))
  /\ filter (among (initialScripts w)) (scripts_of (head (document w')))
     = filter (among (initialScripts w)) (scripts_of (head (document w)))
  /\ initialScripts w' = initialScripts w
  /\ clear w' = (Normal tt, w').
Proof.
  intros Hr w'. subst w'. rewrite clear_run; simpl. rewrite fold_detach.
  split; [reflexivity|]. split; [|split; [|split; [|split]]].
  - intros sc Hin Hdoc. unfold scripts in Hdoc; simpl in Hdoc.
    rewrite !scripts_of_fremove_all, <- filter_app in Hdoc.
    apply filter_In in Hdoc as [_ Hn].
    apply among_In in Hin. rewrite Hin in Hn; discriminate.
  - simpl. apply scripts_of_fremove_all.
  - simpl. rewrite scripts_of_fremove_all, filter_filter.
    apply filter_ext_in; intros s _.
    destruct (among (initialScripts w) s) eqn:Ei; [|apply andb_false_r].
    destruct (among (scriptsStore w) s) eqn:Es; [|reflexivity].
    apply among_In in Ei, Es. exfalso; exact (reachable_registry w Hr s Es Ei).
  - reflexivity.
  - rewrite clear_run, fold_detach; simpl. unfold detach_all_doc; simpl.
    rewrite !fremove_all_idempotent. reflexivity.
Qed.

(** ** Head scripts *)

Lemma existsb_eqb_exists (f : ScriptEl -> string) (v : string) (l : list ScriptEl) :
  existsb (fun i => String.eqb (f i) v) l = true <-> exists i, In i l /\ f i = v.
Proof.
  rewrite existsb_exists. split; intros (i & Hi & E); exists i; split; auto;
    apply String.eqb_eq; exact E.
Qed.

Lemma isNotInitialScript_false (sc : ScriptEl) (w : World) :
  isNotInitialScript sc w = (Normal false, w) <-> known_source_and_text (initialScripts w) sc.
Proof.
  unfold isNotInitialScript, known_source_and_text, bind, gets, ret.
  rewrite <- !(existsb_eqb_exists _ _ (initialScripts w)).
  destruct (existsb (fun i => String.eqb (sc_src i) (sc_src sc)) (initialScripts w)),
           (existsb (fun i => String.eqb (sc_text i) (sc_text sc)) (initialScripts w));
    simpl; split; intros H; try reflexivity; try discriminate; try taut;
    destruct H; discriminate.
Qed.

Lemma isNotInitialScript_total (sc : ScriptEl) (w : World) :
  exists b, isNotInitialScript sc w = (Normal b, w).
Proof. unfold isNotInitialScript, bind, gets, ret. eexists; reflexivity. Qed.

(** C4, amended.  A head script is skipped, the world staying as it is,
    exactly when the snapshot has an entry with its source URL and an
    entry, the same or another, with its text; both are compared for every
    script, external or inline.  Any other head script is pushed on the
    registry, leaves the tree that holds it and becomes the last child of
    the live head. *)
Theorem loadHeadScripts_skips_known (sc : ScriptEl) (w : World) :
  (known_source_and_text (initialScripts w) sc <-> loadHeadScripts sc w = (Normal tt, w))
  /\ (known_source_and_text (initialScripts w) sc \/
      exists w',
        loadHeadScripts sc w = (Normal tt, w')
        /\ scriptsStore w' = scriptsStore w ++ [sc]
        /\ head (document w') = fapp (fremove sc (head (document w))) (FScript sc FNil)
        /\ body (document w') = fremove sc (body (document w))
        /\ parsed w' = detach_doc sc (parsed w)).
Proof.
  destruct (isNotInitialScript_total sc w) as [b Eb].
  pose proof (isNotInitialScript_false sc w) as Hk.
  assert (Hrun : loadHeadScripts sc w =
    if b then
      (Normal tt,
       set_document
         (mkDocument (fapp (fremove sc (head (document w))) (FScript sc FNil))
                     (fremove sc (body (document w))) (title (document w)))
         (set_parsed (detach_doc sc (parsed w))
            (set_scriptsStore (scriptsStore w ++ [sc]) w)))
    else (Normal tt, w)).
  { unfold loadHeadScripts. unfold bind at 1. rewrite Eb. destruct b; reflexivity. }
  rewrite Hrun. destruct b.
  - assert (Hn : ~ known_source_and_text (initialScripts w) sc)
      by (intros H; apply Hk in H; rewrite Eb in H; discriminate).
    split.
    + split; [taut|]. intros E. exfalso.
      apply (f_equal (fun x => length (scriptsStore (snd x)))) in E; simpl in E.
      rewrite length_app in E; simpl in E; lia.
    + right. eexists; split; [reflexivity|]. simpl; auto.
  - assert (Hy : known_source_and_text (initialScripts w) sc) by (apply Hk; exact Eb).
    split; [taut|left; exact Hy].
Qed.

(** ** Body scripts *)

Lemma freplace_absent (x y : ScriptEl) (f : Forest) :
  ~ In x (scripts_of f) -> freplace x y f = f.
Proof.
  induction f as [|s r IH|l k IHk r IHr|t k IHk r IHr]; simpl; intros H.
  - reflexivity.
  - destruct (ScriptEl_eqb x s) eqn:E.
    + apply ScriptEl_eqb_eq in E; subst; taut.
    + rewrite IH; taut.
  - rewrite in_app_iff in H; rewrite IHk, IHr; taut.
  - rewrite in_app_iff in H; rewrite IHk, IHr; taut.
Qed.

Lemma freplace_fapp (x y : ScriptEl) (f g : Forest) :
  freplace x y (fapp f g) = fapp (freplace x y f) (freplace x y g).
Proof.
  induction f as [|s r IH|l k IHk r IHr|t k IHk r IHr]; simpl.
  - reflexivity.
  - destruct (ScriptEl_eqb x s); simpl; rewrite IH; reflexivity.
  - rewrite IHr; reflexivity.
  - rewrite IHr; reflexivity.
Qed.

Lemma parent_tag_absent (top : string) (x : ScriptEl) (f : Forest) :
  ~ In x (scripts_of f) -> parent_tag top x f = None.
Proof.
  revert top; induction f as [|s r IH|l k IHk r IHr|t k IHk r IHr]; simpl; intros top H.
  - reflexivity.
  - destruct (ScriptEl_eqb x s) eqn:E.
    + apply ScriptEl_eqb_eq in E; subst; taut.
    + apply IH; taut.
  - rewrite in_app_iff in H. rewrite IHk, IHr; taut.
  - rewrite in_app_iff in H. rewrite IHk, IHr; taut.
Qed.

Lemma parent_tag_fapp (top : string) (x : ScriptEl) (f g : Forest) :
  parent_tag top x (fapp f g)
  = match parent_tag top x f with
    | Some t => Some t
    | None => parent_tag top x g
    end.
Proof.
  induction f as [|s r IH|l k IHk r IHr|t k IHk r IHr]; simpl.
  - reflexivity.
  - destruct (ScriptEl_eqb x s); [reflexivity|exact IH].
  - destruct (parent_tag "A" x k); [reflexivity|exact IHr].
  - destruct (parent_tag t x k); [reflexivity|exact IHr].
Qed.

Lemma filter_eqb_absent (x : ScriptEl) (l : list ScriptEl) :
  ~ In x l -> filter (ScriptEl_eqb x) l = [].
Proof.
  induction l as [|a l IH]; simpl; intros H; [reflexivity|].
  destruct (ScriptEl_eqb x a) eqn:E.
  - apply ScriptEl_eqb_eq in E; subst; taut.
  - apply IH; taut.
Qed.

Lemma rebuilt_source (sc : ScriptEl) :
  (if String.eqb (sc_src sc) "" then "" else sc_src sc) = sc_src sc.
Proof.
  destruct (String.eqb (sc_src sc) "") eqn:E; [|reflexivity].
  apply String.eqb_eq in E; congruence.
Qed.

(** A script whose parent is neither the head nor the body is passed over. *)
Lemma runScripts_other_placement (sc : ScriptEl) (w : World) (tag : string) :
  parentTag w sc = Some tag -> tag <> "HEAD" -> tag <> "BODY" ->
  runScripts [sc] w = (Normal tt, w).
Proof.
  intros Hp Hh Hb. unfold runScripts; simpl. unfold bind at 1 2, gets. rewrite Hp.
  apply String.eqb_neq in Hh, Hb. rewrite Hh, Hb. reflexivity.
Qed.

(** One step of [runScripts] on a child of the body that occurs nowhere
    else. *)
Lemma runScripts_body_child_run (sc : ScriptEl) (w : World) (before after : Forest) :
  body (document w) = fapp before (FScript sc after) ->
  ~ In sc (scripts_of (head (document w))) ->
  ~ In sc (scripts_of before) -> ~ In sc (scripts_of after) ->
  ~ In sc (scripts (parsed w)) ->
  runScripts [sc] w
  = (Normal tt,
     set_next_id (S (next_id w))
       (set_document
          (mkDocument (head (document w))
                      (fapp before (FScript (rebuilt (next_id w) sc) after))
                      (title (document w))) w)).
Proof.
  intros Hbody Hh Hb Ha Hp.
  unfold scripts in Hp; rewrite in_app_iff in Hp.
  assert (Hph : ~ In sc (scripts_of (head (parsed w)))) by taut.
  assert (Hpb : ~ In sc (scripts_of (body (parsed w)))) by taut.
  assert (Hparent : forall k, parentTag (set_next_id k w) sc = Some "BODY").
  { intros k. unfold parentTag, parentTag_doc; simpl.
    rewrite (parent_tag_absent "HEAD" sc _ Hh), Hbody, parent_tag_fapp,
      (parent_tag_absent "BODY" sc _ Hb); simpl.
    rewrite ScriptEl_eqb_refl; reflexivity. }
  assert (Hparent0 : parentTag w sc = Some "BODY")
    by (rewrite <- (Hparent (next_id w)); destruct w; reflexivity).
  unfold runScripts; simpl. unfold bind at 1 2. unfold gets at 1. rewrite Hparent0.
  simpl. unfold loadBodyScripts, createElement_script.
  unfold bind, gets, modify, ret; simpl.
  rewrite (Hparent (S (next_id w))); simpl.
  unfold replace_doc; simpl.
  rewrite (freplace_absent sc _ _ Hh), (freplace_absent sc _ _ Hph),
    (freplace_absent sc _ _ Hpb), Hbody, freplace_fapp, (freplace_absent sc _ _ Hb).
  simpl. rewrite ScriptEl_eqb_refl, (freplace_absent sc _ _ Ha), rebuilt_source.
  unfold rebuilt.
  destruct w as [? ? ? ? [? ? ?] ? ? ? ? ? ?]; reflexivity.
Qed.

(** C7, amended.  A candidate that is a child of the body element, found
    once in the documents, is replaced where it stands by one new script
    element: new identity, the type of the candidate or [text/javascript]
    when it has none, its source URL, or its text when it has no source.
    The new element occurs once in the live document and the candidate no
    longer occurs. *)
Theorem runScripts_rebuilds_body_child (sc : ScriptEl) (w : World)
        (before after : Forest) :
  body (document w) = fapp before (FScript sc after) ->
  ~ In sc (scripts_of (head (document w)) ++ scripts_of before ++ scripts_of after
           ++ scripts (parsed w)) ->
  (forall s, In s (scripts (document w)) -> sc_id s < next_id w) ->
  let script := rebuilt (next_id w) sc in
  let w' :=
    set_next_id (S (next_id w))
      (set_document (mkDocument (head (document w)) (fapp before (FScript script after))
                                (title (document w))) w) in
  runScripts [sc] w = (Normal tt, w')
  /\ scripts (document w')
     = scripts_of (head (document w)) ++ scripts_of before ++ script :: scripts_of after
  /\ ~ In script (scripts (document w))
  /\ filter (ScriptEl_eqb script) (scripts (document w')) = [script]
  /\ ~ In sc (scripts (document w')).
Proof.
  intros Hbody Habs Hids script w'.
  rewrite !in_app_iff in Habs.
  assert (Hh : ~ In sc (scripts_of (head (document w)))) by taut.
  assert (Hb : ~ In sc (scripts_of before)) by taut.
  assert (Ha : ~ In sc (scripts_of after)) by taut.
  assert (Hp : ~ In sc (scripts (parsed w))) by taut.
  assert (Hall : scripts (document w)
                 = scripts_of (head (document w)) ++ scripts_of before ++ sc :: scripts_of after)
    by (unfold scripts; rewrite Hbody, scripts_of_fapp; reflexivity).
  assert (Hnew : ~ In script (scripts (document w))).
  { intros Hin. apply Hids in Hin. simpl in Hin. lia. }
  assert (Hsc : sc <> script).
  { intros E. assert (Hin : In sc (scripts (document w)))
      by (rewrite Hall; apply in_or_app; right; apply in_or_app; right; left; reflexivity).
    apply Hids in Hin. rewrite E in Hin at 1. simpl in Hin. lia. }
  split; [|split; [|split; [|split]]].
  - apply runScripts_body_child_run; assumption.
  - subst w'; unfold scripts; simpl. rewrite scripts_of_fapp; reflexivity.
  - exact Hnew.
  - subst w'; unfold scripts; simpl. rewrite scripts_of_fapp; simpl.
    rewrite Hall, !in_app_iff in Hnew; simpl in Hnew.
    rewrite !filter_app; simpl. rewrite ScriptEl_eqb_refl.
    rewrite !filter_eqb_absent by taut. reflexivity.
  - subst w'; unfold scripts; simpl. rewrite scripts_of_fapp; simpl.
    rewrite !in_app_iff; simpl. intros [H|[H|[H|H]]]; try taut.
    apply Hsc; congruence.
Qed.

(** *** A whole pass over the scripts of the body *)

Lemma forEach_cons_run {A} (f : A -> M unit) (a : A) (l : list A) (w : World) :
  forEach f (a :: l) w
  = match forEach f [a] w with
    | (Normal _, w1) => forEach f l w1
    | (Throw e, w1) => (Throw e, w1)
    end.
Proof. simpl. unfold bind, ret. destruct (f a w) as [[u|e] w1]; reflexivity. Qed.

Lemma runScripts_cons (sc : ScriptEl) (l : list ScriptEl) (w : World) :
  runScripts (sc :: l) w
  = match runScripts [sc] w with
    | (Normal _, w1) => runScripts l w1
    | (Throw e, w1) => (Throw e, w1)
    end.
Proof. unfold runScripts. apply forEach_cons_run. Qed.

Lemma runScripts_app (l1 l2 : list ScriptEl) (w : World) :
  runScripts (l1 ++ l2) w
  = match runScripts l1 w with
    | (Normal _, w1) => runScripts l2 w1
    | (Throw e, w1) => (Throw e, w1)
    end.
Proof.
  revert w; induction l1 as [|sc l1 IH]; intros w; simpl; [reflexivity|].
  rewrite (runScripts_cons sc (l1 ++ l2)), (runScripts_cons sc l1).
  destruct (runScripts [sc] w) as [[u|e] w1]; [apply IH|reflexivity].
Qed.

Lemma fapp_assoc (f g h : Forest) : fapp (fapp f g) h = fapp f (fapp g h).
Proof. induction f; simpl; congruence. Qed.

Lemma parent_tag_present (top t : string) (sc : ScriptEl) (f : Forest) :
  parent_tag top sc f = Some t -> In sc (scripts_of f).
Proof.
  revert top t; induction f as [|s r IH|l k IHk r IHr|t' k IHk r IHr];
    simpl; intros top t E.
  - discriminate.
  - destruct (ScriptEl_eqb sc s) eqn:Es.
    + apply ScriptEl_eqb_eq in Es; left; congruence.
    + right; eapply IH; eauto.
  - apply in_or_app. destruct (parent_tag "A" sc k) eqn:Ek; [left|right]; eauto.
  - apply in_or_app. destruct (parent_tag t' sc k) eqn:Ek; [left|right]; eauto.
Qed.

(** Below a plain forest every script has a parent that is neither a head
    nor a body. *)
Lemma parent_tag_nested (top : string) (sc : ScriptEl) (f : Forest) :
  In sc (scripts_of f) -> plain f -> top <> "HEAD" -> top <> "BODY" ->
  exists t, parent_tag top sc f = Some t /\ t <> "HEAD" /\ t <> "BODY".
Proof.
  revert top; induction f as [|s r IH|l k IHk r IHr|t k IHk r IHr];
    simpl; intros top Hin Hpl Hh Hb.
  - destruct Hin.
  - destruct (ScriptEl_eqb sc s) eqn:E; [exists top; auto|].
    apply ScriptEl_eqb_neq in E. destruct Hin as [Hin|Hin]; [congruence|].
    apply IH; assumption.
  - destruct Hpl as [Hk Hr]. apply in_app_or in Hin.
    destruct (parent_tag "A" sc k) as [t'|] eqn:Ek.
    + apply parent_tag_present in Ek as Hin'.
      destruct (IHk "A" Hin' Hk) as (t2 & E2 & H2); [discriminate|discriminate|].
      rewrite Ek in E2; inversion E2; subst; exists t2; auto.
    + destruct Hin as [Hin|Hin]; [|apply IHr; assumption].
      destruct (IHk "A" Hin Hk) as (t2 & E2 & _); [discriminate|discriminate|].
      rewrite Ek in E2; discriminate.
  - destruct Hpl as (Ht1 & Ht2 & Hk & Hr). apply in_app_or in Hin.
    destruct (parent_tag t sc k) as [t'|] eqn:Ek.
    + apply parent_tag_present in Ek as Hin'.
      destruct (IHk t Hin' Hk Ht1 Ht2) as (t2 & E2 & H2).
      rewrite Ek in E2; inversion E2; subst; exists t2; auto.
    + destruct Hin as [Hin|Hin]; [|apply IHr; assumption].
      destruct (IHk t Hin Hk Ht1 Ht2) as (t2 & E2 & _).
      rewrite Ek in E2; discriminate.
Qed.

(** A run of [runScripts] over scripts that are all passed over. *)
Lemma runScripts_passed_over (l : list ScriptEl) (w : World) :
  (forall sc, In sc l ->
     exists t, parentTag w sc = Some t /\ t <> "HEAD" /\ t <> "BODY") ->
  runScripts l w = (Normal tt, w).
Proof.
  induction l as [|sc l IH]; intros H; [reflexivity|].
  rewrite runScripts_cons.
  destruct (H sc (or_introl eq_refl)) as (t & Ep & Hh & Hb).
  rewrite (runScripts_other_placement sc w t Ep Hh Hb).
  apply IH. intros x Hx; apply H; right; exact Hx.
Qed.

(** One pass of [runScripts] over the scripts of the children [rest] of the
    body, the children [done] before them being through: each child script
    is rebuilt where it stands, in document order, and the scripts further
    down stay. *)
Lemma runScripts_body_pass (rest done : Forest) (w : World) :
  body (document w) = fapp done rest ->
  plain rest -> NoDup (scripts_of rest) ->
  (forall s, In s (scripts_of rest) ->
     ~ In s (scripts_of (head (document w))) /\ ~ In s (scripts_of done)
     /\ ~ In s (scripts (parsed w)) /\ sc_id s < next_id w) ->
  runScripts (scripts_of rest) w
  = (Normal tt,
     set_next_id (next_id w + child_scripts rest)
       (set_document
          (mkDocument (head (document w))
                      (fapp done (rebuild_children (next_id w) rest))
                      (title (document w))) w)).
Proof.
  revert done w.
  induction rest as [|s r IH|l k IHk r IHr|t k IHk r IHr]; intros done w Hbody Hpl Hnd Hout.
  - simpl. rewrite Nat.add_0_r, <- Hbody.
    destruct w as [? ? ? [? ? ?] ? ? ? ? ? ? ?]; reflexivity.
  - simpl in *. rewrite runScripts_cons.
    inversion Hnd as [|? ? Hs Hnd']; subst.
    destruct (Hout s (or_introl eq_refl)) as (Hh & Hd & Hp & Hid).
    rewrite (runScripts_body_child_run s w done r Hbody Hh Hd Hs Hp).
    rewrite (IH (fapp done (FScript (rebuilt (next_id w) s) FNil))).
    + simpl. rewrite fapp_assoc; simpl. rewrite Nat.add_succ_r. reflexivity.
    + simpl. rewrite fapp_assoc; reflexivity.
    + exact Hpl.
    + exact Hnd'.
    + intros x Hx. destruct (Hout x (or_intror Hx)) as (Hh' & Hd' & Hp' & Hid').
      simpl. rewrite scripts_of_fapp, in_app_iff; simpl.
      repeat split; try assumption; [|lia].
      intros [Hin|[E|[]]]; [taut|]. subst x. simpl in Hid'. lia.
  - simpl in *. destruct Hpl as [Hk Hr]. rewrite runScripts_app.
    rewrite runScripts_passed_over.
    + rewrite (IHr (fapp done (FLink l k FNil))).
      * simpl. rewrite fapp_assoc; reflexivity.
      * rewrite fapp_assoc; exact Hbody.
      * exact Hr.
      * apply NoDup_app_remove_l in Hnd; exact Hnd.
      * intros x Hx.
        destruct (Hout x (in_or_app _ _ _ (or_intror Hx))) as (Hh' & Hd' & Hp' & Hid').
        rewrite scripts_of_fapp, in_app_iff; simpl. rewrite app_nil_r.
        repeat split; try assumption.
        intros [Hin|Hin]; [taut|].
        revert Hin Hx; clear - Hnd.
        induction (scripts_of k) as [|a q IHq]; simpl in *; [taut|].
        inversion Hnd; subst. intros [->|Hq] Hx; [|auto].
        match goal with H : ~ In _ _ |- _ => apply H; apply in_or_app; right; exact Hx end.
    + intros sc Hsc.
      destruct (Hout sc (in_or_app _ _ _ (or_introl Hsc))) as (Hh' & Hd' & _).
      destruct (parent_tag_nested "A" sc k Hsc Hk) as (t & Et & Ht); [discriminate..|].
      exists t; split; [|exact Ht].
      unfold parentTag, parentTag_doc.
      rewrite (parent_tag_absent "HEAD" sc _ Hh'), Hbody, parent_tag_fapp,
        (parent_tag_absent "BODY" sc _ Hd'); simpl. rewrite Et; reflexivity.
  - simpl in *. destruct Hpl as (Ht1 & Ht2 & Hk & Hr). rewrite runScripts_app.
    rewrite runScripts_passed_over.
    + rewrite (IHr (fapp done (FElem t k FNil))).
      * simpl. rewrite fapp_assoc; reflexivity.
      * rewrite fapp_assoc; exact Hbody.
      * exact Hr.
      * apply NoDup_app_remove_l in Hnd; exact Hnd.
      * intros x Hx.
        destruct (Hout x (in_or_app _ _ _ (or_intror Hx))) as (Hh' & Hd' & Hp' & Hid').
        rewrite scripts_of_fapp, in_app_iff; simpl. rewrite app_nil_r.
        repeat split; try assumption.
        intros [Hin|Hin]; [taut|].
        revert Hin Hx; clear - Hnd.
        induction (scripts_of k) as [|a q IHq]; simpl in *; [taut|].
        inversion Hnd; subst. intros [->|Hq] Hx; [|auto].
        match goal with H : ~ In _ _ |- _ => apply H; apply in_or_app; right; exact Hx end.
    + intros sc Hsc.
      destruct (Hout sc (in_or_app _ _ _ (or_introl Hsc))) as (Hh' & Hd' & _).
      destruct (parent_tag_nested t sc k Hsc Hk Ht1 Ht2) as (t' & Et & Ht).
      exists t'; split; [|exact Ht].
      unfold parentTag, parentTag_doc.
      rewrite (parent_tag_absent "HEAD" sc _ Hh'), Hbody, parent_tag_fapp,
        (parent_tag_absent "BODY" sc _ Hd'); simpl. rewrite Et; reflexivity.
Qed.

(** *** A whole pass over the candidates of a navigation *)

Lemma plain_fremove (x : ScriptEl) (f : Forest) : plain f -> plain (fremove x f).
Proof.
  induction f as [|s r IH|l k IHk r IHr|t k IHk r IHr]; simpl; intros H.
  - exact I.
  - destruct (ScriptEl_eqb x s); simpl; auto.
  - destruct H; auto.
  - destruct H as (? & ? & ? & ?); auto.
Qed.

Lemma plain_fapp (f g : Forest) : plain f -> plain g -> plain (fapp f g).
Proof.
  induction f as [|s r IH|l k IHk r IHr|t k IHk r IHr]; simpl; intros Hf Hg.
  - exact Hg.
  - auto.
  - destruct Hf; auto.
  - destruct Hf as (? & ? & ? & ?); auto.
Qed.

(** In a plain forest the parent of a script is the element the forest
    hangs from, or an element that is neither a head nor a body. *)
Lemma parent_tag_plain (top : string) (sc : ScriptEl) (f : Forest) :
  In sc (scripts_of f) -> plain f ->
  exists t, parent_tag top sc f = Some t /\ (t = top \/ (t <> "HEAD" /\ t <> "BODY")).
Proof.
  induction f as [|s r IH|l k IHk r IHr|t k IHk r IHr]; simpl; intros Hin Hpl.
  - destruct Hin.
  - destruct (ScriptEl_eqb sc s) eqn:E; [exists top; auto|].
    apply ScriptEl_eqb_neq in E. destruct Hin as [Hin|Hin]; [congruence|auto].
  - destruct Hpl as [Hk Hr]. apply in_app_or in Hin.
    destruct (parent_tag "A" sc k) as [t'|] eqn:Ek.
    + apply parent_tag_present in Ek as Hin'.
      destruct (parent_tag_nested "A" sc k Hin' Hk) as (t2 & E2 & H2);
        [discriminate|discriminate|].
      rewrite Ek in E2; inversion E2; subst. exists t2; auto.
    + destruct Hin as [Hin|Hin]; [|auto].
      destruct (parent_tag_nested "A" sc k Hin Hk) as (t2 & E2 & _);
        [discriminate|discriminate|].
      rewrite Ek in E2; discriminate.
  - destruct Hpl as (Ht1 & Ht2 & Hk & Hr). apply in_app_or in Hin.
    destruct (parent_tag t sc k) as [t'|] eqn:Ek.
    + apply parent_tag_present in Ek as Hin'.
      destruct (parent_tag_nested t sc k Hin' Hk Ht1 Ht2) as (t2 & E2 & H2).
      rewrite Ek in E2; inversion E2; subst. exists t2; auto.
    + destruct Hin as [Hin|Hin]; [|auto].
      destruct (parent_tag_nested t sc k Hin Hk Ht1 Ht2) as (t2 & E2 & _).
      rewrite Ek in E2; discriminate.
Qed.

Lemma loadHeadScripts_run (sc : ScriptEl) (w : World) :
  loadHeadScripts sc w = (Normal tt, w) \/ loadHeadScripts sc w = (Normal tt, injected sc w).
Proof.
  destruct (isNotInitialScript_total sc w) as [b Eb].
  assert (Hrun : loadHeadScripts sc w
                 = if b then (Normal tt, injected sc w) else (Normal tt, w)).
  { unfold loadHeadScripts. unfold bind at 1. rewrite Eb. destruct b; reflexivity. }
  destruct b; [right|left]; exact Hrun.
Qed.

Lemma runScripts_head_child (sc : ScriptEl) (w : World) :
  parentTag w sc = Some "HEAD" ->
  runScripts [sc] w = (Normal tt, w) \/ runScripts [sc] w = (Normal tt, injected sc w).
Proof.
  intros Hp.
  assert (Hr : runScripts [sc] w = loadHeadScripts sc w).
  { unfold runScripts; simpl. unfold bind at 1 2, gets. rewrite Hp; simpl.
    destruct (loadHeadScripts sc w) as [[[]|e] w1]; reflexivity. }
  rewrite Hr. apply loadHeadScripts_run.
Qed.

Lemma detach_doc_absent (sc : ScriptEl) (d : Document) :
  ~ In sc (scripts d) -> detach_doc sc d = d.
Proof.
  unfold scripts, detach_doc; rewrite in_app_iff; intros H.
  rewrite !fremove_absent by taut. destruct d; reflexivity.
Qed.

Lemma head_pass_injected (b pb : Forest) (k : nat) (hs : list ScriptEl)
      (sc : ScriptEl) (w : World) :
  head_pass_inv b pb k hs w -> In sc hs ->
  ~ In sc (scripts_of b) -> ~ In sc (scripts_of pb) ->
  head_pass_inv b pb k hs (injected sc w).
Proof.
  intros (Eb & Epb & Ek & Hp1 & Hp2 & Hs) Hin Hb Hpb.
  unfold head_pass_inv, injected; simpl.
  rewrite Eb, Epb, !fremove_absent by assumption.
  repeat split; try assumption.
  - apply plain_fapp; [apply plain_fremove; exact Hp1|exact I].
  - apply plain_fremove; exact Hp2.
  - rewrite scripts_of_fapp, !scripts_of_fremove, !in_app_iff, !filter_In; simpl.
    intros [[[H _]|[<-|[]]]|[H _]]; [| exact Hin |]; apply Hs, in_or_app; auto.
  - intros H. apply Hs in H.
    rewrite scripts_of_fapp, !scripts_of_fremove, !in_app_iff, !filter_In; simpl.
    destruct (ScriptEl_eqb sc s) eqn:E.
    + apply ScriptEl_eqb_eq in E; subst; auto.
    + apply in_app_or in H as [H|H]; auto.
Qed.

(** A pass over scripts of the two heads returns and keeps the invariant. *)
Lemma runScripts_head_pass (b pb : Forest) (k : nat) (hs l : list ScriptEl) (w : World) :
  (forall s, In s hs -> ~ In s (scripts_of b) /\ ~ In s (scripts_of pb)) ->
  (forall s, In s l -> In s hs) ->
  head_pass_inv b pb k hs w ->
  exists w', runScripts l w = (Normal tt, w') /\ head_pass_inv b pb k hs w'.
Proof.
  intros Hdis. revert w; induction l as [|sc l IH]; intros w Hl Hinv.
  - exists w; split; [reflexivity|exact Hinv].
  - rewrite runScripts_cons.
    assert (Hsc : In sc hs) by (apply Hl; left; reflexivity).
    destruct (Hdis sc Hsc) as [Hb Hpb].
    assert (Hstep : runScripts [sc] w = (Normal tt, w)
                    \/ runScripts [sc] w = (Normal tt, injected sc w)).
    { destruct Hinv as (Eb & Epb & Ek & Hp1 & Hp2 & Hs).
      assert (Hwhere : In sc (scripts_of (head (document w)) ++ scripts_of (head (parsed w))))
        by (apply Hs; exact Hsc).
      assert (Hcases : exists t, parentTag w sc = Some t
                                 /\ (t = "HEAD" \/ (t <> "HEAD" /\ t <> "BODY"))).
      { unfold parentTag, parentTag_doc.
        destruct (parent_tag "HEAD" sc (head (document w))) as [t|] eqn:E1.
        - apply parent_tag_present in E1 as Hin1.
          destruct (parent_tag_plain "HEAD" sc _ Hin1 Hp1) as (t' & E' & Ht').
          rewrite E1 in E'; inversion E'; subst. exists t'; auto.
        - rewrite Eb, (parent_tag_absent "BODY" sc b Hb).
          apply in_app_or in Hwhere as [Hin1|Hin2].
          + destruct (parent_tag_plain "HEAD" sc _ Hin1 Hp1) as (t' & E' & _).
            rewrite E1 in E'; discriminate.
          + destruct (parent_tag_plain "HEAD" sc _ Hin2 Hp2) as (t' & E' & Ht').
            rewrite E'. exists t'; auto. }
      destruct Hcases as (t & Ep & [->|[Hh Hbd]]).
      - apply runScripts_head_child; exact Ep.
      - left; apply (runScripts_other_placement sc w t Ep Hh Hbd). }
    destruct Hstep as [E|E]; rewrite E; apply IH;
      try (intros s Hs; apply Hl; right; exact Hs); try exact Hinv.
    apply head_pass_injected; assumption.
Qed.

Lemma scripts_of_rebuild_children (k : nat) (f : Forest) (s : ScriptEl) :
  In s (scripts_of (rebuild_children k f)) -> In s (scripts_of f) \/ k <= sc_id s.
Proof.
  revert k; induction f as [|x r IH|l kd IHk r IHr|t kd IHk r IHr]; simpl; intros k H.
  - destruct H.
  - destruct H as [<-|H]; [right; simpl; lia|].
    apply IH in H as [H|H]; [left; right; exact H|right; lia].
  - apply in_app_or in H as [H|H]; [left; apply in_or_app; auto|].
    apply IHr in H as [H|H]; [left; apply in_or_app; auto|right; exact H].
  - apply in_app_or in H as [H|H]; [left; apply in_or_app; auto|].
    apply IHr in H as [H|H]; [left; apply in_or_app; auto|right; exact H].
Qed.

(** X19.  The call of [runScripts] in a navigation, on the world [loadHTML]
    leaves: plain trees, body scripts that are distinct and apart from the
    scripts of the two heads, identities below the allocation counter.  It
    returns, and the children of the body are the ones before, each child
    script rebuilt where it stood. *)
Lemma runScripts_navigation_pass (w : World) :
  body (parsed w) = FNil ->
  plain (head (document w)) -> plain (head (parsed w)) -> plain (body (document w)) ->
  NoDup (scripts_of (body (document w))) ->
  (forall s, In s (scripts_of (head (document w)) ++ scripts_of (head (parsed w))) ->
     ~ In s (scripts_of (body (document w))) /\ sc_id s < next_id w) ->
  (forall s, In s (scripts_of (body (document w))) -> sc_id s < next_id w) ->
  exists w',
    runScripts (scripts (document w) ++ scripts (parsed w)) w = (Normal tt, w')
    /\ body (document w') = rebuild_children (next_id w) (body (document w))
    /\ next_id w' = next_id w + child_scripts (body (document w)).
Proof.
  intros Hpb Hp1 Hp2 Hpl Hnd Hhs Hids.
  set (b := body (document w)) in *.
  set (hs := scripts_of (head (document w)) ++ scripts_of (head (parsed w))) in *.
  unfold scripts. fold b. rewrite Hpb; simpl. rewrite app_nil_r, <- app_assoc.
  rewrite runScripts_app.
  destruct (runScripts_head_pass b FNil (next_id w) hs (scripts_of (head (document w))) w)
    as (w1 & E1 & Hinv1).
  { intros s Hs; split; [apply Hhs; exact Hs|intros []]. }
  { intros s Hs; apply in_or_app; left; exact Hs. }
  { repeat split; auto. }
  rewrite E1. rewrite runScripts_app.
  destruct Hinv1 as (Eb1 & Epb1 & Ek1 & Hp11 & Hp21 & Hs1).
  rewrite (runScripts_body_pass b FNil w1).
  - match goal with |- context [runScripts _ ?w2'] => set (w2 := w2') end.
    destruct (runScripts_head_pass (rebuild_children (next_id w1) b) FNil
                (next_id w1 + child_scripts b) hs (scripts_of (head (parsed w))) w2)
      as (w3 & E3 & Hinv3).
    + intros s Hs; split; [|intros []]. intros Hin.
      apply scripts_of_rebuild_children in Hin as [Hin|Hin].
      * apply (proj1 (Hhs s Hs)); exact Hin.
      * destruct (Hhs s Hs) as [_ Hlt]. lia.
    + intros s Hs; apply in_or_app; right; exact Hs.
    + subst w2; repeat split; simpl; auto; apply Hs1.
    + rewrite E3. exists w3. split; [reflexivity|].
      destruct Hinv3 as (Eb3 & _ & Ek3 & _). rewrite Eb3, Ek3, Ek1. auto.
  - exact Eb1.
  - exact Hpl.
  - exact Hnd.
  - intros s Hs. repeat split.
    + intros Hin. assert (Hin' : In s hs) by (apply Hs1; apply in_or_app; auto).
      apply (proj1 (Hhs s Hin')); exact Hs.
    + intros [].
    + unfold scripts; rewrite Epb1, app_nil_r. intros Hin.
      assert (Hin' : In s hs) by (apply Hs1; apply in_or_app; auto).
      apply (proj1 (Hhs s Hin')); exact Hs.
    + rewrite Ek1; apply Hids; exact Hs.
Qed.

(** ** Route matching *)

Lemma findIndex_result {A} (p : A -> Completion bool) (l : list A) (i j : Z) :
  (0 <= i)%Z -> findIndex p l i = Normal j ->
  (j = (-1)%Z /\ forall a, In a l -> p a = Normal false)
  \/ ((0 <= j)%Z /\ exists a, In a l /\ p a = Normal true).
Proof.
  revert i; induction l as [|a l IH]; intros i Hi; simpl.
  - intros E; left; split; [congruence|intros ? []].
  - destruct (p a) as [[|]|e] eqn:Ea; simpl; [| |discriminate].
    + intros E; right; split; [inversion E; lia|]. exists a; auto.
    + intros E. apply IH in E; [|lia].
      destruct E as [[-> Hall]|[Hj (b & Hb & Eb)]].
      * left; split; [reflexivity|]. intros b [<-|Hb]; auto.
      * right; split; [exact Hj|]. exists b; auto.
Qed.

Lemma checkRoutes_result (link : LinkEl) (rs : list string) (b : bool) :
  checkRoutes link rs = Normal b ->
  (b = true <->
   (exists route, In route rs /\
      RegExp_test (replace_first_star route) (pathname link) = Normal true)
   /\ hasOwnProperty (ln_dataset link) "noSpa" = false).
Proof.
  unfold checkRoutes.
  destruct (findIndex _ rs 0%Z) as [j|e] eqn:Ef; simpl; [|discriminate].
  intros E; inversion E; subst b; clear E.
  apply findIndex_result in Ef; [|lia].
  rewrite andb_true_iff, !negb_true_iff.
  destruct Ef as [[-> Hall]|[Hj (a & Ha & Ea)]].
  - simpl. split; [intros [? _]; discriminate|].
    intros [(r & Hr & Er) _]. rewrite (Hall r Hr) in Er; discriminate.
  - assert (Hz : (Z.lnot j =? 0)%Z = false)
      by (apply Z.eqb_neq; unfold Z.lnot; lia).
    rewrite Hz. split; [intros [_ H]; split; [exists a; auto|exact H]|taut].
Qed.

Lemma filterC_In {A} (p : A -> Completion bool) (l r : list A) :
  filterC p l = Normal r -> forall a, In a r <-> In a l /\ p a = Normal true.
Proof.
  revert r; induction l as [|x l IH]; intros r; simpl.
  - intros E a; inversion E; simpl; taut.
  - destruct (p x) as [b|e] eqn:Ex; simpl; [|discriminate].
    destruct (filterC p l) as [r'|e] eqn:Er; simpl; [|discriminate].
    intros E a; inversion E; subst r; clear E.
    specialize (IH r' eq_refl a).
    destruct b; simpl; rewrite IH; split.
    + intros [<-|H]; [auto|taut].
    + intros [[<-|H] Hp]; [auto|taut].
    + taut.
    + intros [[<-|H] Hp]; [congruence|taut].
Qed.

Lemma forEach_emit {A} (f : A -> Effect) (l : list A) (w : World) :
  forEach (fun a => emit (f a)) l w = (Normal tt, set_trace (trace w ++ map f l) w).
Proof.
  revert w; induction l as [|a l IH]; intros w; simpl.
  - unfold ret. rewrite app_nil_r. destruct w; reflexivity.
  - unfold bind, emit at 1, modify. rewrite IH; simpl.
    rewrite <- app_assoc. reflexivity.
Qed.

Lemma enableSPA_run (w : World) :
  enableSPA w =
  match filterC (fun link => checkRoutes link (routes w)) (links (document w)) with
  | Normal found => (Normal tt, set_trace (trace w ++ map ClickListener found) w)
  | Throw e => (Throw e, w)
  end.
Proof.
  unfold enableSPA, bind, gets, lift; simpl.
  destruct (filterC _ (links (document w))) as [found|e]; [|reflexivity].
  apply forEach_emit.
Qed.

Lemma click_listeners_map (l : list LinkEl) : click_listeners (map ClickListener l) = l.
Proof. induction l as [|a l IH]; simpl; congruence. Qed.

(** C1, amended.  When [enableSPA] returns, the links that gained the
    click listener are the links of the document with some pattern matching
    the pathname of the link itself and without the [noSpa] data attribute;
    the path of the current document plays no part in it. *)
Theorem enableSPA_matches_link_pathname (w w' : World) :
  enableSPA w = (Normal tt, w') ->
  (forall link,
     In link (click_listeners (trace w')) <->
     In link (click_listeners (trace w)) \/
     (In link (links (document w))
      /\ (exists route, In route (routes w) /\
            RegExp_test (replace_first_star route) (pathname link) = Normal true)
      /\ hasOwnProperty (ln_dataset link) "noSpa" = false))
  /\ (forall path,
        enableSPA (set_location_pathname path w)
        = (Normal tt, set_location_pathname path w')).
Proof.
  rewrite enableSPA_run.
  destruct (filterC _ (links (document w))) as [found|e] eqn:Ef; [|discriminate].
  intros E; inversion E; subst w'; clear E. split.
  - intros link. simpl. rewrite click_listeners_app, click_listeners_map, in_app_iff.
    rewrite (filterC_In _ _ _ Ef link).
    split; (intros [H|H]; [left; exact H|right]).
    + destruct H as [Hl Hc]. split; [exact Hl|].
      apply (checkRoutes_result link (routes w) true Hc); reflexivity.
    + destruct H as (Hl & Hr & Hd). split; [exact Hl|].
      assert (Hin : In link (links (document w))) by exact Hl.
      destruct (checkRoutes link (routes w)) as [b|e] eqn:Ec.
      * f_equal. apply (checkRoutes_result link (routes w) b Ec). auto.
      * exfalso. clear - Ef Hin Ec.
        revert found Ef; induction (links (document w)) as [|x l IH]; intros found Ef;
          [destruct Hin|].
        simpl in Ef. destruct Hin as [->|Hin].
        -- rewrite Ec in Ef; discriminate.
        -- destruct (checkRoutes x (routes w)); simpl in Ef; [|discriminate].
           destruct (filterC _ l) eqn:El; simpl in Ef; [|discriminate].
           eapply IH; eauto.
  - intros path. rewrite enableSPA_run; simpl. rewrite Ef. reflexivity.
Qed.

(** *** The fragment, by positions *)

Lemma match_here_spec (p : list Fragment.Atom) (s : string) :
  Fragment.match_here p s = true <->
  exists mid post,
    s = (mid ++ post)%string /\
    Forall2 (fun a c => Fragment.atom_matches a c = true) p (list_ascii_of_string mid).
Proof.
  revert s; induction p as [|a p IH]; intros s; simpl.
  - split; [intros _|reflexivity]. exists EmptyString, s; split; [reflexivity|constructor].
  - destruct s as [|c s'].
    + split; [discriminate|]. intros (mid & post & E & F).
      destruct mid; simpl in *; [inversion F|discriminate].
    + rewrite andb_true_iff, IH. split.
      * intros [Hc (mid & post & E & F)]. exists (String c mid), post.
        split; [simpl; congruence|simpl; constructor; assumption].
      * intros (mid & post & E & F). destruct mid as [|c' mid]; simpl in *; [inversion F|].
        inversion E; subst. inversion F; subst. split; [assumption|].
        exists mid, post; auto.
Qed.

Lemma occurs_step {A} (m : A -> ascii -> bool) (pat : list A) (s : string) :
  occurs m pat s <->
  (exists mid post,
     s = (mid ++ post)%string /\
     Forall2 (fun a c => m a c = true) pat (list_ascii_of_string mid))
  \/ (exists c s', s = String c s' /\ occurs m pat s').
Proof.
  unfold occurs. split.
  - intros (pre & mid & post & E & F). destruct pre as [|c pre]; simpl in E.
    + left; exists mid, post; auto.
    + right; exists c, (pre ++ mid ++ post)%string; split; [exact E|].
      exists pre, mid, post; auto.
  - intros [(mid & post & E & F)|(c & s' & E & pre & mid & post & E' & F)].
    + exists EmptyString, mid, post; auto.
    + exists (String c pre), mid, post; split; [simpl; congruence|exact F].
Qed.

Lemma search_spec (p : list Fragment.Atom) (s : string) :
  Fragment.search p s = true <-> occurs Fragment.atom_matches p s.
Proof.
  induction s as [|c s IH].
  - rewrite occurs_step. simpl. rewrite orb_false_r, match_here_spec.
    split; [intros H; left; exact H|]. intros [H|(c & s' & E & _)]; [exact H|discriminate].
  - rewrite occurs_step. simpl. rewrite orb_true_iff, match_here_spec, IH.
    split; (intros [H|H]; [left; exact H|right]).
    + exists c, s; auto.
    + destruct H as (c' & s' & E & H). inversion E; subst; exact H.
Qed.

Lemma Forall2_literals (l : list ascii) (m : list ascii) :
  Forall2 (fun a c => Fragment.atom_matches a c = true) (map Fragment.Lit l) m <->
  Forall2 (fun a c => eqb_ci a c = true) l m.
Proof.
  revert m; induction l as [|a l IH]; intros m; simpl.
  - split; intros F; inversion F; constructor.
  - split; intros F; inversion F; subst; constructor; try assumption; apply IH; assumption.
Qed.

Lemma contains_ci_search (s q : string) :
  contains_ci s q <->
  Fragment.search (map Fragment.Lit (list_ascii_of_string q)) s = true.
Proof.
  rewrite search_spec. unfold contains_ci, occurs.
  split; intros (pre & mid & post & E & F); exists pre, mid, post; split; auto;
    apply Forall2_literals; exact F.
Qed.

Lemma compile_literal (q : string) :
  literal q -> Fragment.compile q = Some (map Fragment.Lit (list_ascii_of_string q)).
Proof.
  unfold literal. induction q as [|c q IH]; simpl; intros H; [reflexivity|].
  inversion H as [|? ? Hc Hq]; subst.
  destruct (Ascii.eqb c ".") eqn:E.
  - apply Ascii.eqb_eq in E; subst. discriminate Hc.
  - rewrite Hc, (IH Hq). reflexivity.
Qed.

Section Matching.

(** The engine agrees with the fragment on the sources of the fragment. *)
Hypothesis RegExp_on_fragment :
  forall src atoms s,
    Fragment.compile src = Some atoms -> RegExp_test src s = Normal (Fragment.search atoms s).

Lemma checkRoutes_singleton (p : string) (atoms : list Fragment.Atom) (link : LinkEl) :
  Fragment.compile (replace_first_star p) = Some atoms ->
  hasOwnProperty (ln_dataset link) "noSpa" = false ->
  checkRoutes link [p] = Normal (Fragment.search atoms (pathname link)).
Proof.
  intros Hc Hd. unfold checkRoutes; simpl.
  rewrite (RegExp_on_fragment _ _ _ Hc), Hd; simpl.
  destruct (Fragment.search atoms (pathname link)); reflexivity.
Qed.

(** C2, amended.  For a pattern whose text without its first wildcard is
    made of ordinary characters and dots, and a link without the opt-out,
    [checkRoutes] answers, and answers true exactly when that text matches
    somewhere in the path: an ordinary character matches itself up to case
    and a dot matches any character but a line terminator.  When the text
    has ordinary characters only, this is the containment of the text in
    the path, up to case.  So ["*.html"] accepts ["/about.html"] and
    rejects ["/about.php"]. *)
Theorem checkRoutes_single_pattern (p : string) (atoms : list Fragment.Atom)
        (link : LinkEl) :
  Fragment.compile (replace_first_star p) = Some atoms ->
  hasOwnProperty (ln_dataset link) "noSpa" = false ->
  (exists b, checkRoutes link [p] = Normal b)
  /\ (checkRoutes link [p] = Normal true <->
      occurs Fragment.atom_matches atoms (pathname link))
  /\ (literal (replace_first_star p) ->
      (checkRoutes link [p] = Normal true <->
       contains_ci (pathname link) (replace_first_star p)))
  /\ (forall id ds, hasOwnProperty ds "noSpa" = false ->
        checkRoutes (mkLink id "/about.html" ds) ["*.html"] = Normal true /\
        checkRoutes (mkLink id "/about.php" ds) ["*.html"] = Normal false).
Proof.
  intros Hc Hd. rewrite (checkRoutes_singleton p atoms link Hc Hd).
  split; [eexists; reflexivity|]. split; [|split].
  - rewrite <- search_spec. split; [intros E; inversion E; reflexivity|intros ->; reflexivity].
  - intros Hl. rewrite contains_ci_search.
    rewrite (compile_literal _ Hl) in Hc. inversion Hc; subst atoms.
    split; [intros E; inversion E; reflexivity|intros ->; reflexivity].
  - intros id ds Hds. split.
    + rewrite (checkRoutes_singleton "*.html" _ (mkLink id "/about.html" ds) eq_refl Hds).
      reflexivity.
    + rewrite (checkRoutes_singleton "*.html" _ (mkLink id "/about.php" ds) eq_refl Hds).
      reflexivity.
Qed.

End Matching.

(** * Further properties of the class *)

(** ** More frames *)

#[local] Instance script_frame_preorder : PreOrder script_frame.
Proof.
  split.
  - intros w; repeat split.
  - intros a b c (A1 & A2 & A3) (B1 & B2 & B3). repeat split; congruence.
Qed.

#[local] Instance config_frame_preorder : PreOrder config_frame.
Proof.
  split.
  - intros w; repeat split.
  - intros a b c (A1 & A2 & A3) (B1 & B2 & B3). repeat split; congruence.
Qed.

#[local] Instance history_step_preorder : PreOrder history_step.
Proof.
  split.
  - intros w e He; left; exact He.
  - intros a b c Hab Hbc e He. destruct (Hbc e He) as [H|H]; [apply Hab; exact H|right; exact H].
Qed.

#[local] Instance trace_step_preorder : PreOrder trace_step.
Proof.
  split.
  - intros w; exists []; rewrite app_nil_r; reflexivity.
  - intros a b c [x Hx] [y Hy]. exists (x ++ y). rewrite Hy, Hx, app_assoc; reflexivity.
Qed.

#[local] Instance keeps_preorder (P : World -> Prop) : PreOrder (keeps P).
Proof. split; unfold keeps; [intros w H; exact H|intros a b c Hab Hbc H; auto]. Qed.

Lemma links_of_fapp (f g : Forest) : links_of (fapp f g) = links_of f ++ links_of g.
Proof.
  induction f as [|s r IH|l k IHk r IHr|t k IHk r IHr]; simpl;
    rewrite ?IH, ?IHr, ?app_assoc; reflexivity.
Qed.

Lemma links_of_freplace (x y : ScriptEl) (f : Forest) :
  links_of (freplace x y f) = links_of f.
Proof.
  induction f as [|s r IH|l k IHk r IHr|t k IHk r IHr]; simpl;
    try destruct (ScriptEl_eqb x s); simpl; congruence.
Qed.

Ltac script_leaf :=
  solve [repeat split; simpl; unfold links; simpl;
         rewrite ?links_of_fapp, ?links_of_fremove, ?links_of_freplace; simpl;
         rewrite ?app_nil_r; reflexivity].

Lemma script_frame_clear : preserves script_frame clear.
Proof. unfold clear. frame_with script_leaf. Qed.

Lemma script_frame_loadHeadScripts (sc : ScriptEl) :
  preserves script_frame (loadHeadScripts sc).
Proof. unfold loadHeadScripts, isNotInitialScript, appendChild_head. frame_with script_leaf. Qed.

Lemma script_frame_loadBodyScripts (sc : ScriptEl) :
  preserves script_frame (loadBodyScripts sc).
Proof. unfold loadBodyScripts, createElement_script. frame_with script_leaf. Qed.

#[local] Hint Resolve script_frame_clear script_frame_loadHeadScripts
  script_frame_loadBodyScripts : frames.

Lemma script_frame_runScripts (scs : list ScriptEl) : preserves script_frame (runScripts scs).
Proof. unfold runScripts. frame_with script_leaf. Qed.

Ltac config_leaf := solve [repeat split].

Lemma config_frame_exec (op : Op) : preserves config_frame (exec op).
Proof.
  destruct op; simpl;
    unfold history_go, onpopstate, navigate, navigate_then, navigate_catch, console_error,
      getUrl, getPage, fetch, parseHTML, clear, loadHTML, runScripts, enableSPA, pushState,
      loadHeadScripts, loadBodyScripts, isNotInitialScript, appendChild_head,
      createElement_script, emit;
    frame_with config_leaf.
Qed.

Ltac trace_leaf :=
  solve [exists []; simpl; rewrite app_nil_r; reflexivity | eexists; simpl; reflexivity].

Lemma trace_step_exec (op : Op) : preserves trace_step (exec op).
Proof.
  destruct op; simpl;
    unfold history_go, onpopstate, navigate, navigate_then, navigate_catch, console_error,
      getUrl, getPage, fetch, parseHTML, clear, loadHTML, runScripts, enableSPA, pushState,
      loadHeadScripts, loadBodyScripts, isNotInitialScript, appendChild_head,
      createElement_script, emit;
    frame_with trace_leaf.
Qed.

(** ** What every operation keeps *)

Lemma exec_all_preserves (R : World -> World -> Prop) `{PreOrder World R} :
  (forall op, preserves R (exec op)) -> forall ops w, R w (exec_all ops w).
Proof.
  intros Hop ops. unfold exec_all. induction ops as [|op ops IH]; intros w; simpl.
  - reflexivity.
  - etransitivity; [apply (Hop op w)|apply IH].
Qed.

(** X1.  No operation of the router changes its options, the snapshot of
    the initial scripts or the popstate listener: they stay as the
    constructor left them. *)
Theorem configuration_is_permanent (ops : list Op) (w : World) :
  routes (exec_all ops w) = routes w
  /\ initialScripts (exec_all ops w) = initialScripts w
  /\ popstate_listener (exec_all ops w) = popstate_listener w.
Proof. exact (exec_all_preserves config_frame config_frame_exec ops w). Qed.


Lemma In_firstn {A} (n : nat) (l : list A) (x : A) : In x (firstn n l) -> In x l.
Proof.
  revert l; induction n as [|n IH]; intros [|a l]; simpl; try tauto.
  intros [H|H]; [left; exact H|right; apply IH; exact H].
Qed.

Ltac history_leaf :=
  let x := fresh "x" in
  let Hx := fresh "Hx" in
  intros x Hx;
  solve [ left; exact Hx
        | apply in_app_or in Hx as [Hx|[<-|[]]];
          [left; apply (In_firstn _ _ _ Hx)|right; reflexivity] ].

Lemma history_step_exec (op : Op) : preserves history_step (exec op).
Proof.
  destruct op; simpl;
    unfold history_go, onpopstate, navigate, navigate_then, navigate_catch, console_error,
      getUrl, getPage, fetch, parseHTML, clear, loadHTML, runScripts, enableSPA, pushState,
      loadHeadScripts, loadBodyScripts, isNotInitialScript, appendChild_head,
      createElement_script, emit;
    frame_with history_leaf.
Qed.

Lemma history_step_constructor (options : Options) :
  preserves history_step (constructor options).
Proof.
  unfold constructor, initialize, addRouteListener, enableSPA, pushState, emit.
  frame_with history_leaf.
Qed.

(** X3.  Every history entry the router writes has, as its state, an
    object whose [url] is the url of the entry: after the constructor and
    after any operations, an entry is one that was there before or carries
    its url. *)
Theorem pushed_entries_carry_their_url (options : Options) (ops : list Op) (page : World) :
  forall e,
    In e (entries (exec_all ops (snd (constructor options page)))) ->
    In e (entries page) \/ h_state e = StateObject (Some (h_url e)).
Proof.
  assert (H : history_step page (exec_all ops (snd (constructor options page)))).
  { etransitivity; [apply history_step_constructor|].
    apply (exec_all_preserves history_step history_step_exec). }
  exact H.
Qed.

(** ** The location and the current entry *)

Lemma at_current_entry_pushed (kept : list HistoryEntry) (st : HistoryState)
      (t url : string) (w : World) :
  at_current_entry
    (set_location_pathname url
       (set_history (kept ++ [mkEntry st t url]) (length kept) w)).
Proof.
  exists (mkEntry st t url); simpl. split; [|reflexivity].
  rewrite nth_error_app2 by lia. rewrite Nat.sub_diag. reflexivity.
Qed.

Ltac current_leaf :=
  solve [ let H := fresh "H" in intros H; exact H
        | intros _; apply at_current_entry_pushed ].

Lemma current_navigate (url : NavInput) (net : FetchOutcome) :
  preserves (keeps at_current_entry) (navigate url net).
Proof.
  unfold navigate, navigate_then, navigate_catch, console_error,
    getUrl, getPage, fetch, parseHTML, clear, loadHTML, runScripts, enableSPA, pushState,
    loadHeadScripts, loadBodyScripts, isNotInitialScript, appendChild_head,
    createElement_script, emit.
  frame_with current_leaf.
Qed.

Lemma history_go_run (i : nat) (net : FetchOutcome) (w : World) :
  history_go i net w
  = match nth_error (entries w) i with
    | None => (Normal tt, w)
    | Some e =>
        let moved := set_location_pathname (h_url e) (set_history (entries w) i w) in
        if popstate_listener w then onpopstate (h_state e) net moved else (Normal tt, moved)
    end.
Proof.
  unfold history_go, bind at 1, gets at 1.
  destruct (nth_error (entries w) i) as [e|]; [|reflexivity].
  unfold bind, modify, gets; simpl. destruct (popstate_listener w); reflexivity.
Qed.

Lemma current_exec (op : Op) : preserves (keeps at_current_entry) (exec op).
Proof.
  destruct op; simpl; try apply current_navigate.
  - intros w Hw. rewrite history_go_run.
    destruct (nth_error (entries w) i) as [e|] eqn:En; [|exact Hw].
    assert (Hm : at_current_entry
                   (set_location_pathname (h_url e) (set_history (entries w) i w)))
      by (exists e; split; [exact En|reflexivity]).
    simpl. destruct (popstate_listener w); [|exact Hm].
    destruct (h_state e) as [|[p|]]; simpl; try exact Hm.
    apply (current_navigate (Path p) net _ Hm).
  - unfold getPage, fetch, emit. frame_with current_leaf.
  - unfold parseHTML. frame_with current_leaf.
  - unfold loadHTML. frame_with current_leaf.
  - unfold runScripts, loadHeadScripts, loadBodyScripts, isNotInitialScript,
      appendChild_head, createElement_script. frame_with current_leaf.
  - unfold loadHeadScripts, isNotInitialScript, appendChild_head. frame_with current_leaf.
  - unfold loadBodyScripts, createElement_script. frame_with current_leaf.
  - unfold clear. frame_with current_leaf.
  - unfold enableSPA, emit. frame_with current_leaf.
Qed.

(** ** The constructor *)

Lemma constructor_run (options : Options) (page : World) :
  opt_enabled options = true ->
  let attached :=
    set_popstate_listener true
      (set_initialScripts (scripts (document page))
         (set_scriptsStore [] (set_routes (opt_routes options) page))) in
  constructor options page
  = match filterC (fun link => checkRoutes link (opt_routes options))
                  (links (document page)) with
    | Normal found =>
        (Normal tt,
         set_location_pathname (location_pathname page)
           (set_history
              (firstn (S (index page)) (entries page)
               ++ [mkEntry (StateObject (Some (location_pathname page)))
                           (title (document page)) (location_pathname page)])
              (length (firstn (S (index page)) (entries page)))
              (set_trace (trace page ++ map ClickListener found) attached)))
    | Throw e => (Throw e, attached)
    end.
Proof.
  intros Hen attached. rewrite (constructor_enabled options page Hen).
  unfold initialize, addRouteListener. unfold bind at 1, modify at 1.
  unfold bind at 1. rewrite enableSPA_run. simpl routes. simpl document.
  destruct (filterC _ _) as [found|e]; reflexivity.
Qed.


(** X5.  [new Router(options)].  With [enabled] off nothing happens beyond
    keeping the options.  With it on, the registry starts empty, the
    snapshot is the list of scripts of the document and the popstate
    listener is attached, in every case; then, if some pattern makes
    [RegExp] throw on a link, the constructor throws that error and the
    history is untouched and no link is wired; otherwise exactly the
    eligible links are wired and one entry for the current path is pushed
    after the current entry. *)
Theorem constructor_effects (options : Options) (page : World) :
  (opt_enabled options = false ->
     constructor options page = (Normal tt, set_routes (opt_routes options) page))
  /\ (opt_enabled options = true ->
      let w := snd (constructor options page) in
      routes w = opt_routes options /\ scriptsStore w = []
      /\ initialScripts w = scripts (document page) /\ popstate_listener w = true
      /\ document w = document page
      /\ ((exists e, fst (constructor options page) = Throw e
                     /\ entries w = entries page /\ index w = index page
                     /\ trace w = trace page)
          \/ (fst (constructor options page) = Normal tt
              /\ entries w = firstn (S (index page)) (entries page)
                             ++ [mkEntry (StateObject (Some (location_pathname page)))
                                         (title (document page)) (location_pathname page)]
              /\ index w = length (firstn (S (index page)) (entries page))
              /\ location_pathname w = location_pathname page
              /\ exists found,
                    trace w = trace page ++ map ClickListener found
                    /\ forall link,
                         In link found <->
                         In link (links (document page))
                         /\ checkRoutes link (opt_routes options) = Normal true))).
Proof.
  split.
  - intros Hd. unfold constructor. rewrite Hd. reflexivity.
  - intros Hen. rewrite (constructor_run options page Hen).
    destruct (filterC _ (links (document page))) as [found|e] eqn:Ef; simpl.
    + repeat split. right. repeat split.
      exists found. split; [reflexivity|]. apply (filterC_In _ _ _ Ef).
    + repeat split. left. exists e. repeat split.
Qed.

(** ** A navigation whose fetch succeeds *)

Lemma swap_run (v : PageValue) (w : World) :
  (parseHTML v ;; clear ;; loadHTML) w = (Normal tt, after_swap v w).
Proof.
  unfold bind at 1. unfold parseHTML at 1, modify at 1.
  unfold bind at 1. rewrite clear_run, fold_detach. reflexivity.
Qed.

Lemma bind_run {A B} (m : M A) (k : A -> M B) (w w1 : World) (a : A) :
  m w = (Normal a, w1) -> bind m k w = k a w1.
Proof. intros E; unfold bind; rewrite E; reflexivity. Qed.

Lemma navigate_then_run (url : string) (v : PageValue) (w : World) :
  navigate_then url v w
  = match runScripts (scripts (document (after_swap v w)) ++ scripts (parsed (after_swap v w)))
                     (after_swap v w) with
    | (Normal _, w4) =>
        match enableSPA w4 with
        | (Normal _, w5) => (Normal tt, pushed url w5)
        | (Throw e, w5) => (Throw e, w5)
        end
    | (Throw e, w4) => (Throw e, w4)
    end.
Proof.
  pose proof (swap_run v w) as Hs.
  rewrite (bind_run (parseHTML v) _ w _ tt eq_refl) in Hs.
  rewrite (bind_run clear _ _ _ tt (clear_run _)) in Hs.
  unfold navigate_then.
  rewrite (bind_run (parseHTML v) _ w _ tt eq_refl).
  rewrite (bind_run clear _ _ _ tt (clear_run _)).
  rewrite (bind_run loadHTML _ _ _ tt Hs).
  rewrite (bind_run (gets _) _ _ _ _ eq_refl).
  rewrite (bind_run (gets _) _ _ _ _ eq_refl).
  unfold bind at 1.
  destruct (runScripts _ (after_swap v w)) as [[u|e] w4]; [|reflexivity].
  unfold bind at 1. destruct (enableSPA w4) as [[u'|e] w5]; reflexivity.
Qed.

Lemma navigate_ok_run (url : NavInput) (p : string) (r : Response) (w : World) :
  requested_path url = Some p -> ok r = true ->
  navigate url (FetchResolves r) w
  = match navigate_then p (page_value r)
            (set_trace (trace w ++ input_effects url ++ [FetchRequest p]) w) with
    | (Normal _, w1) => (Normal tt, w1)
    | (Throw e, w1) =>
        (Normal tt,
         set_trace (trace w1 ++ [ConsoleError
           ("There has been a problem with your fetch operation: " ++ message e)%string]) w1)
    end.
Proof.
  intros Hp Hok.
  destruct (navigate_run url (FetchResolves r) w p (input_effects url)) as (page & Eg & En).
  { destruct url as [|q|l]; simpl in *; [discriminate| |].
    - left; inversion Hp; auto.
    - right; exists l; inversion Hp; auto. }
  destruct (getPage_run p (FetchResolves r) (set_trace (trace w ++ input_effects url) w))
    as (page' & Eg' & Hpage).
  rewrite Eg in Eg'. inversion Eg'; subst page'. simpl in Hpage. rewrite Hok in Hpage.
  rewrite En, Hpage. reflexivity.
Qed.

Lemma links_of_fremove_all (l : list ScriptEl) (f : Forest) :
  links_of (fremove_all l f) = links_of f.
Proof.
  unfold fremove_all. revert f; induction l as [|a l IH]; intros f; simpl; [reflexivity|].
  rewrite IH. apply links_of_fremove.
Qed.

Lemma links_of_shift_ids_paths (k : nat) (f : Forest) :
  map pathname (links_of (shift_ids k f)) = map pathname (links_of f).
Proof.
  induction f as [|s r IH|l kd IHk r IHr|t kd IHk r IHr]; simpl;
    rewrite ?map_app, ?IH, ?IHk, ?IHr; reflexivity.
Qed.

Lemma trace_step_navigate_then (url : string) (v : PageValue) :
  preserves trace_step (navigate_then url v).
Proof.
  unfold navigate_then, parseHTML, clear, loadHTML, runScripts, enableSPA, pushState,
    loadHeadScripts, loadBodyScripts, isNotInitialScript, appendChild_head,
    createElement_script, emit.
  frame_with trace_leaf.
Qed.

(** X6.  [navigate] on a path or on the click event of a link always
    returns normally, whatever the network answers and whatever the render
    does; the first things it does are to cancel the default action of the
    event, if it got one, and to request the path.  On [undefined] it
    throws at once, before any request. *)
Theorem navigate_is_fire_and_forget (url : NavInput) (net : FetchOutcome) (w : World) :
  (forall p, requested_path url = Some p ->
     fst (navigate url net w) = Normal tt
     /\ exists later,
          trace (snd (navigate url net w))
          = trace w ++ input_effects url ++ FetchRequest p :: later)
  /\ (url = Undefined -> exists e, navigate url net w = (Throw e, w)).
Proof.
  split.
  - intros p Hp.
    destruct (navigate_run url net w p (input_effects url)) as (page & _ & En).
    { destruct url as [|q|l]; simpl in *; [discriminate| |].
      - left; inversion Hp; auto.
      - right; exists l; inversion Hp; auto. }
    rewrite En. destruct page as [v|e].
    + destruct (trace_step_navigate_then p v
                  (set_trace (trace w ++ input_effects url ++ [FetchRequest p]) w))
        as [added Ea].
      destruct (navigate_then p v _) as [[u|e] w1]; simpl in *; split; try reflexivity.
      * exists added. rewrite Ea, <- !app_assoc. reflexivity.
      * eexists. rewrite Ea, <- !app_assoc. simpl. reflexivity.
    + simpl. split; [reflexivity|]. eexists. reflexivity.
  - intros ->. eexists. reflexivity.
Qed.

Lemma navigate_path_returns (p : string) (net : FetchOutcome) (w : World) :
  fst (navigate (Path p) net w) = Normal tt.
Proof.
  destruct (navigate_run (Path p) net w p []) as (page & _ & En); [left; auto|].
  rewrite En. destruct page as [v|e]; [|reflexivity].
  destruct (navigate_then p v _) as [[u|e] w1]; reflexivity.
Qed.

(** X7.  Going back or forward to a history entry whose state has a url,
    as every entry the router writes has, never throws: the location moves
    to the entry and, when the listener is attached, [navigate] runs on
    that url. *)
Theorem history_go_to_url_entry (i : nat) (net : FetchOutcome) (w : World)
        (entry : HistoryEntry) (p : string) :
  nth_error (entries w) i = Some entry -> h_state entry = StateObject (Some p) ->
  let moved := set_location_pathname (h_url entry) (set_history (entries w) i w) in
  fst (history_go i net w) = Normal tt
  /\ history_go i net w
     = if popstate_listener w then navigate (Path p) net moved else (Normal tt, moved).
Proof.
  intros Hn Hs moved. rewrite history_go_run, Hn, Hs. simpl.
  destruct (popstate_listener w); [|split; reflexivity].
  split; [apply navigate_path_returns|reflexivity].
Qed.

(** X8.  An ok response whose body cannot be decoded is rendered as the
    page whose markup is the text [[object Response]]: the navigation does
    exactly what it does for a response with that text as its body. *)
Theorem navigate_undecodable_body (url : NavInput) (r : Response) (w : World) :
  ok r = true -> text_body r = None ->
  navigate url (FetchResolves r) w
  = navigate url
      (FetchResolves (mkResponse (status r) (statusText r) (Some "[object Response]"))) w.
Proof.
  intros Hok Ht.
  destruct (requested_path url) as [p|] eqn:Hp.
  - rewrite (navigate_ok_run url p r w Hp Hok).
    rewrite (navigate_ok_run url p _ w Hp); [|exact Hok].
    unfold page_value; rewrite Ht; reflexivity.
  - destruct url; try discriminate. reflexivity.
Qed.

Lemma after_swap_facts (v : PageValue) (w : World) :
  let d := DOMParser_parse (to_html_string v) in
  title (document (after_swap v w)) = title d
  /\ links (document (after_swap v w))
     = links_of (head (document w)) ++ links_of (shift_ids (next_id w) (body d))
  /\ trace (after_swap v w) = trace w
  /\ routes (after_swap v w) = routes w
  /\ render_frame w (after_swap v w).
Proof.
  unfold after_swap, links; simpl. rewrite !links_of_fremove_all.
  repeat split.
Qed.

(** What a render leaves, thrown or not: the title and the links of the
    swapped document, and a trace that starts with the one it found. *)
Lemma navigate_then_document (url : string) (v : PageValue) (w : World) :
  let d := DOMParser_parse (to_html_string v) in
  let w1 := snd (navigate_then url v w) in
  title (document w1) = title d
  /\ links (document w1)
     = links_of (head (document w)) ++ links_of (shift_ids (next_id w) (body d)).
Proof.
  intros d w1. subst w1. rewrite navigate_then_run.
  destruct (after_swap_facts v w) as (Ht & Hl & _).
  pose proof (script_frame_runScripts
                (scripts (document (after_swap v w)) ++ scripts (parsed (after_swap v w)))
                (after_swap v w)) as (Ft & Fl & _).
  destruct (runScripts _ (after_swap v w)) as [[u|e] w4]; cbn [snd] in *.
  - rewrite enableSPA_run.
    destruct (filterC _ _) as [found|e]; cbn [snd]; unfold pushed; simpl;
      rewrite Ft, Fl, Ht, Hl; split; reflexivity.
  - rewrite Ft, Fl, Ht, Hl; split; reflexivity.
Qed.



(** ** Patterns and eligibility *)

(** X11.  [route.replace('*', '')] takes out the first wildcard only: a
    pattern without a wildcard is unchanged, otherwise the text before the
    first wildcard and the text after it are put together, further
    wildcards included. *)
Theorem replace_first_star_first_only (p : string) :
  (wildcards p = 0 /\ replace_first_star p = p)
  \/ (exists pre post,
        p = (pre ++ String "*" post)%string /\ wildcards pre = 0
        /\ replace_first_star p = (pre ++ post)%string
        /\ wildcards (replace_first_star p) = wildcards p - 1).
Proof.
  induction p as [|c p IH]; simpl.
  - left; split; reflexivity.
  - destruct (Ascii.eqb c "*") eqn:E.
    + apply Ascii.eqb_eq in E; subst c. right. exists EmptyString, p.
      repeat split. simpl. lia.
    + destruct IH as [[H0 Hr]|(pre & post & Hp & Hw & Hr & Hn)].
      * left. rewrite Hr, H0. split; reflexivity.
      * right. exists (String c pre), post. split; [|split; [|split]].
        -- simpl. rewrite Hp; reflexivity.
        -- simpl. rewrite E, Hw. reflexivity.
        -- simpl. rewrite Hr. reflexivity.
        -- simpl. rewrite E. simpl. exact Hn.
Qed.

Lemma findIndex_from {A} (p : A -> Completion bool) (l : list A) (i j : Z) :
  (0 <= i)%Z -> (0 <= j)%Z ->
  cbind (findIndex p l i) (fun k => Normal (negb (Z.lnot k =? 0)%Z))
  = cbind (findIndex p l j) (fun k => Normal (negb (Z.lnot k =? 0)%Z)).
Proof.
  revert i j; induction l as [|a l IH]; intros i j Hi Hj; simpl; [reflexivity|].
  destruct (p a) as [[|]|e]; simpl.
  - f_equal. f_equal.
    assert (Ei : (Z.lnot i =? 0)%Z = false) by (apply Z.eqb_neq; unfold Z.lnot; lia).
    assert (Ej : (Z.lnot j =? 0)%Z = false) by (apply Z.eqb_neq; unfold Z.lnot; lia).
    rewrite Ei, Ej; reflexivity.
  - apply IH; lia.
  - reflexivity.
Qed.

(** X12.  [checkRoutes] tries the patterns in order and stops at the first
    that matches.  With no pattern it answers false.  A pattern that
    matches decides (the link is eligible unless it opts out) and the later
    patterns are not tried; a pattern that does not match is passed; a
    pattern on which [RegExp] throws makes [checkRoutes] throw, opt-out or
    not.  Whenever it answers for a link with the [noSpa] data attribute,
    the answer is false. *)
Theorem checkRoutes_in_order (link : LinkEl) (route : string) (rest : list string) :
  checkRoutes link [] = Normal false
  /\ (RegExp_test (replace_first_star route) (pathname link) = Normal true ->
      checkRoutes link (route :: rest)
      = Normal (negb (hasOwnProperty (ln_dataset link) "noSpa")))
  /\ (RegExp_test (replace_first_star route) (pathname link) = Normal false ->
      checkRoutes link (route :: rest) = checkRoutes link rest)
  /\ (forall e, RegExp_test (replace_first_star route) (pathname link) = Throw e ->
      checkRoutes link (route :: rest) = Throw e)
  /\ (forall b, checkRoutes link (route :: rest) = Normal b ->
      hasOwnProperty (ln_dataset link) "noSpa" = true -> b = false).
Proof.
  unfold checkRoutes. repeat split.
  - intros E; simpl; rewrite E; reflexivity.
  - intros E; simpl; rewrite E; simpl.
    pose proof (findIndex_from
                  (fun r => RegExp_test (replace_first_star r) (pathname link)) rest 1 0
                  ltac:(lia) ltac:(lia)) as H.
    change (0 + 1)%Z with 1%Z.
    destruct (findIndex _ rest 1%Z) as [k|e]; destruct (findIndex _ rest 0%Z) as [k'|e'];
      simpl in *; inversion H as [H']; try reflexivity; rewrite H'; reflexivity.
  - intros e E; simpl; rewrite E; reflexivity.
  - intros b E Hd. destruct (findIndex _ (route :: rest) 0%Z) as [k|e]; simpl in E;
      [|discriminate].
    rewrite Hd in E. rewrite andb_false_r in E. congruence.
Qed.

(** X13.  [enableSPA] wires all the eligible links or none: if
    [checkRoutes] throws on some link no listener is added and the error
    goes to the caller; a document without links is accepted whatever the
    patterns are.  It does not look at what is wired already: a second call
    wires the same links once more. *)
Theorem enableSPA_all_or_nothing (w : World) :
  (forall e,
     filterC (fun link => checkRoutes link (routes w)) (links (document w)) = Throw e ->
     enableSPA w = (Throw e, w))
  /\ (links (document w) = [] -> enableSPA w = (Normal tt, w))
  /\ (forall w1,
        enableSPA w = (Normal tt, w1) ->
        exists found,
          click_listeners (trace w1) = click_listeners (trace w) ++ found
          /\ fst (enableSPA w1) = Normal tt
          /\ click_listeners (trace (snd (enableSPA w1)))
             = click_listeners (trace w) ++ found ++ found).
Proof.
  split; [|split].
  - intros e E. rewrite enableSPA_run, E. reflexivity.
  - intros E. rewrite enableSPA_run, E. simpl. rewrite app_nil_r.
    destruct w; reflexivity.
  - intros w1. rewrite enableSPA_run.
    destruct (filterC _ (links (document w))) as [found|e] eqn:Ef; [|discriminate].
    intros E; inversion E; subst w1; clear E. exists found.
    rewrite enableSPA_run; simpl. rewrite Ef; simpl.
    rewrite !click_listeners_app, !click_listeners_map, <- app_assoc. auto.
Qed.

(** ** Head and body scripts again *)

Lemma fremove_twice (x : ScriptEl) (f : Forest) : fremove x (fremove x f) = fremove x f.
Proof.
  apply fremove_absent. rewrite scripts_of_fremove. intros H.
  apply filter_In in H as [_ H]. rewrite ScriptEl_eqb_refl in H. discriminate.
Qed.

Lemma fremove_fapp (x : ScriptEl) (f g : Forest) :
  fremove x (fapp f g) = fapp (fremove x f) (fremove x g).
Proof.
  induction f as [|s r IH|l k IHk r IHr|t k IHk r IHr]; simpl.
  - reflexivity.
  - destruct (ScriptEl_eqb x s); simpl; rewrite IH; reflexivity.
  - rewrite IHr; reflexivity.
  - rewrite IHr; reflexivity.
Qed.

Lemma filter_eqb_fremove (x : ScriptEl) (f : Forest) :
  filter (ScriptEl_eqb x) (scripts_of (fremove x f)) = [].
Proof.
  apply filter_eqb_absent. rewrite scripts_of_fremove. intros H.
  apply filter_In in H as [_ H]. rewrite ScriptEl_eqb_refl in H. discriminate.
Qed.

Lemma loadHeadScripts_unknown (sc : ScriptEl) (w : World) :
  ~ known_source_and_text (initialScripts w) sc ->
  loadHeadScripts sc w = (Normal tt, injected sc w).
Proof.
  intros Hn. destruct (loadHeadScripts_run sc w) as [E|E]; [|exact E].
  exfalso. apply Hn. apply isNotInitialScript_false.
  destruct (isNotInitialScript_total sc w) as [b Eb]. rewrite Eb.
  destruct b; [|reflexivity]. exfalso.
  unfold loadHeadScripts in E. unfold bind at 1 in E. rewrite Eb in E.
  apply (f_equal (fun x => length (scriptsStore (snd x)))) in E. simpl in E.
  rewrite length_app in E. simpl in E. lia.
Qed.

Lemma loadHeadScripts_skips (sc : ScriptEl) (w : World) :
  In sc (initialScripts w) -> loadHeadScripts sc w = (Normal tt, w).
Proof.
  intros Hin. destruct (loadHeadScripts_run sc w) as [E|E]; [exact E|].
  exfalso. apply (f_equal (fun x => scriptsStore (snd x))) in E.
  destruct (registry_loadHeadScripts sc w) as [_ (more & Em & Hm)].
  rewrite E in Em. simpl in Em. apply app_inv_head in Em. subst more.
  exact (Hm sc (or_introl eq_refl) Hin).
Qed.

(** X14.  [loadHeadScripts] never acts on a script of the initial snapshot.
    A script the snapshot does not know by source and text ends up exactly
    once in the live document, as the last child of the head, and nowhere
    in the fetched document, wherever it was before; a second call on it
    leaves the documents as they are and stores the script once more, so
    the registry can hold a script several times while the head never
    does. *)
Theorem loadHeadScripts_moves_once (sc : ScriptEl) (w : World) :
  (In sc (initialScripts w) -> loadHeadScripts sc w = (Normal tt, w))
  /\ (~ known_source_and_text (initialScripts w) sc ->
      let w1 := snd (loadHeadScripts sc w) in
      let w2 := snd (loadHeadScripts sc w1) in
      filter (ScriptEl_eqb sc) (scripts (document w1)) = [sc]
      /\ (exists others, scripts_of (head (document w1)) = others ++ [sc])
      /\ ~ In sc (scripts (parsed w1))
      /\ scriptsStore w1 = scriptsStore w ++ [sc]
      /\ document w2 = document w1 /\ parsed w2 = parsed w1
      /\ scriptsStore w2 = scriptsStore w ++ [sc; sc]).
Proof.
  split.
  - intros Hin. apply loadHeadScripts_skips. exact Hin.
  - intros Hn w1 w2. subst w2 w1.
    rewrite (loadHeadScripts_unknown sc w Hn). cbn [snd].
    assert (Hn1 : ~ known_source_and_text (initialScripts (injected sc w)) sc) by exact Hn.
    rewrite (loadHeadScripts_unknown sc _ Hn1). cbn [snd].
    unfold injected, scripts, detach_doc; simpl.
    rewrite !scripts_of_fapp, !filter_app, !filter_eqb_fremove; simpl.
    rewrite ScriptEl_eqb_refl, !fremove_fapp, !fremove_twice; simpl.
    rewrite ScriptEl_eqb_refl, <- app_assoc. simpl.
    repeat split.
    + eexists; reflexivity.
    + rewrite in_app_iff, !scripts_of_fremove. intros [H|H];
        apply filter_In in H as [_ H]; rewrite ScriptEl_eqb_refl in H; discriminate.
    + f_equal. induction (fremove sc (head (document w))); simpl; congruence.
Qed.

Lemma parentTag_absent (w : World) (sc : ScriptEl) :
  ~ In sc (scripts (document w)) -> ~ In sc (scripts (parsed w)) -> parentTag w sc = None.
Proof.
  unfold scripts, parentTag, parentTag_doc. rewrite !in_app_iff. intros H1 H2.
  rewrite !parent_tag_absent by taut. reflexivity.
Qed.

(** X15.  [runScripts] stops at a candidate that has no parent: it throws
    a [TypeError], the candidates after it are not processed and what was
    done before stays.  This is what happens to a child of the body that
    comes twice in the candidates: the first pass rebuilds it and removes
    it, the second finds it detached. *)
Theorem runScripts_stops_at_detached (sc : ScriptEl) (later : list ScriptEl) (w : World) :
  (parentTag w sc = None ->
     runScripts (sc :: later) w
     = (Throw (TypeError "Cannot read properties of null (reading 'tagName')"), w))
  /\ (forall before after,
        body (document w) = fapp before (FScript sc after) ->
        ~ In sc (scripts_of (head (document w)) ++ scripts_of before ++ scripts_of after
                 ++ scripts (parsed w)) ->
        sc_id sc <> next_id w ->
        runScripts (sc :: sc :: later) w
        = (Throw (TypeError "Cannot read properties of null (reading 'tagName')"),
           snd (runScripts [sc] w))).
Proof.
  assert (Hstop : forall w0 l, parentTag w0 sc = None ->
            runScripts (sc :: l) w0
            = (Throw (TypeError "Cannot read properties of null (reading 'tagName')"), w0)).
  { intros w0 l Hp. unfold runScripts; simpl. unfold bind at 1 2, gets. rewrite Hp.
    reflexivity. }
  split; [apply Hstop|].
  intros before after Hbody Habs Hid.
  rewrite !in_app_iff in Habs.
  rewrite runScripts_cons.
  rewrite (runScripts_body_child_run sc w before after Hbody) by taut.
  cbn [snd]. apply Hstop. apply parentTag_absent.
  - unfold scripts; simpl. rewrite scripts_of_fapp; simpl. rewrite !in_app_iff; simpl.
    intros [H|[H|[H|H]]]; try taut.
    apply Hid. rewrite <- H. reflexivity.
  - simpl. taut.
Qed.

(** X16.  Processing scripts changes scripts only: [clear] and
    [runScripts], on any candidates and whether or not [runScripts] throws,
    leave the title of the live document, its links in document order and
    the trace as they were. *)
Theorem script_processing_keeps_links (scs : list ScriptEl) (w : World) :
  (title (document (snd (runScripts scs w))) = title (document w)
   /\ links (document (snd (runScripts scs w))) = links (document w)
   /\ trace (snd (runScripts scs w)) = trace w)
  /\ (title (document (snd (clear w))) = title (document w)
      /\ links (document (snd (clear w))) = links (document w)
      /\ trace (snd (clear w)) = trace w).
Proof.
  split; [exact (script_frame_runScripts scs w)|exact (script_frame_clear w)].
Qed.

(** ** The fragment: anywhere in the path, whatever the case *)

Lemma string_app_assoc (a b c : string) : ((a ++ b) ++ c = a ++ (b ++ c))%string.
Proof. induction a as [|x a IH]; simpl; [reflexivity|rewrite IH; reflexivity]. Qed.

Lemma occurs_extend {A} (m : A -> ascii -> bool) (pat : list A) (s pre post : string) :
  occurs m pat s -> occurs m pat (pre ++ s ++ post)%string.
Proof.
  intros (a & mid & b & E & F). exists (pre ++ a)%string, mid, (b ++ post)%string.
  split; [|exact F]. subst s.
  rewrite !string_app_assoc. reflexivity.
Qed.

Lemma canonicalize_facts (c : ascii) :
  canonicalize (canonicalize c) = canonicalize c
  /\ Fragment.is_line_terminator (canonicalize c) = Fragment.is_line_terminator c
  /\ Fragment.is_syntax_char (canonicalize c) = Fragment.is_syntax_char c
  /\ Ascii.eqb (canonicalize c) "." = Ascii.eqb c "."
  /\ Ascii.eqb (canonicalize c) "*" = Ascii.eqb c "*".
Proof.
  destruct c as [[] [] [] [] [] [] [] []]; vm_compute; repeat split.
Qed.

Lemma atom_matches_upper (a : Fragment.Atom) (c : ascii) :
  Fragment.atom_matches a (canonicalize c) = Fragment.atom_matches a c
  /\ Fragment.atom_matches (upper_atom a) c = Fragment.atom_matches a c.
Proof.
  destruct (canonicalize_facts c) as (Hc & Hl & _).
  destruct a as [l|]; simpl; unfold eqb_ci.
  - rewrite Hc. destruct (canonicalize_facts l) as (Hcl & _). rewrite Hcl. auto.
  - rewrite Hl. auto.
Qed.

Lemma search_upper (p : list Fragment.Atom) (s : string) :
  Fragment.search p (upper s) = Fragment.search p s
  /\ Fragment.search (map upper_atom p) s = Fragment.search p s.
Proof.
  assert (Hm : forall q t, Fragment.match_here q (upper t) = Fragment.match_here q t
                           /\ Fragment.match_here (map upper_atom q) t
                              = Fragment.match_here q t).
  { induction q as [|a q IH]; intros [|c t]; simpl; auto.
    destruct (atom_matches_upper a c) as [H1 H2]. destruct (IH t) as [I1 I2].
    rewrite H1, H2, I1, I2. auto. }
  induction s as [|c s [IH1 IH2]]; simpl.
  - destruct (Hm p EmptyString) as [_ H2]. rewrite H2. auto.
  - destruct (Hm p (String c s)) as [H1 H2]. simpl in H1. rewrite H1, H2, IH1, IH2. auto.
Qed.

Lemma replace_first_star_upper (p : string) :
  replace_first_star (upper p) = upper (replace_first_star p).
Proof.
  induction p as [|c p IH]; simpl; [reflexivity|].
  destruct (canonicalize_facts c) as (_ & _ & _ & _ & Hs). rewrite Hs.
  destruct (Ascii.eqb c "*"); simpl; [reflexivity|rewrite IH; reflexivity].
Qed.

Lemma compile_upper (q : string) :
  Fragment.compile (upper q) = option_map (map upper_atom) (Fragment.compile q).
Proof.
  induction q as [|c q IH]; simpl; [reflexivity|].
  destruct (canonicalize_facts c) as (_ & _ & Hs & Hd & _). rewrite Hd, Hs, IH.
  destruct (Ascii.eqb c "."); [destruct (Fragment.compile q); reflexivity|].
  destruct (Fragment.is_syntax_char c); [reflexivity|].
  destruct (Fragment.compile q); reflexivity.
Qed.

Section MatchingAnywhere.

(** The engine agrees with the fragment on the sources of the fragment. *)
Hypothesis RegExp_fragment :
  forall src atoms s,
    Fragment.compile src = Some atoms -> RegExp_test src s = Normal (Fragment.search atoms s).

Lemma checkRoutes_fragment (p : string) (atoms : list Fragment.Atom) (link : LinkEl) :
  Fragment.compile (replace_first_star p) = Some atoms ->
  checkRoutes link [p]
  = Normal (Fragment.search atoms (pathname link)
            && negb (hasOwnProperty (ln_dataset link) "noSpa")).
Proof.
  intros Hc. unfold checkRoutes; simpl.
  rewrite (RegExp_fragment _ _ _ Hc); simpl.
  destruct (Fragment.search atoms (pathname link)); reflexivity.
Qed.

(** X17.  The match is not anchored and nothing of the path is set apart:
    for a pattern of ordinary characters and dots, a link that is eligible
    stays eligible when anything is put before or after its path, a
    directory, a query or a fragment alike. *)
Theorem checkRoutes_is_not_anchored (p : string) (atoms : list Fragment.Atom)
        (link : LinkEl) (pre post : string) :
  Fragment.compile (replace_first_star p) = Some atoms ->
  checkRoutes link [p] = Normal true ->
  checkRoutes (mkLink (ln_id link) (pre ++ pathname link ++ post) (ln_dataset link)) [p]
  = Normal true.
Proof.
  intros Hc. rewrite !(checkRoutes_fragment p atoms _ Hc). simpl.
  intros E; injection E as E'. apply andb_true_iff in E' as [Hs Hd].
  rewrite Hd. apply search_spec in Hs.
  apply (occurs_extend _ _ _ pre post), search_spec in Hs. rewrite Hs. reflexivity.
Qed.

(** X18.  Matching ignores the case of letters on both sides: for a
    pattern of ordinary characters and dots, [checkRoutes] gives the same
    answer for a path and for the path in upper case, and for the pattern
    and the pattern in upper case. *)
Theorem checkRoutes_ignores_case (p : string) (atoms : list Fragment.Atom) (link : LinkEl) :
  Fragment.compile (replace_first_star p) = Some atoms ->
  checkRoutes (mkLink (ln_id link) (upper (pathname link)) (ln_dataset link)) [p]
  = checkRoutes link [p]
  /\ checkRoutes link [upper p] = checkRoutes link [p].
Proof.
  intros Hc. split.
  - rewrite !(checkRoutes_fragment p atoms _ Hc). simpl.
    rewrite (proj1 (search_upper atoms (pathname link))). reflexivity.
  - assert (Hu : Fragment.compile (replace_first_star (upper p))
                 = Some (map upper_atom atoms))
      by (rewrite replace_first_star_upper, compile_upper, Hc; reflexivity).
    rewrite (checkRoutes_fragment (upper p) _ link Hu),
      (checkRoutes_fragment p atoms link Hc).
    rewrite (proj2 (search_upper atoms (pathname link))). reflexivity.
Qed.

End MatchingAnywhere.

(** ** What the registry holds *)

#[local] Instance unknown_step_preorder : PreOrder unknown_step.
Proof.
  split.
  - intros w; split; [reflexivity|]. exists []; rewrite app_nil_r; split; [reflexivity|].
    intros sc [].
  - intros a b c [Ei1 (m1 & E1 & H1)] [Ei2 (m2 & E2 & H2)].
    split; [congruence|]. exists (m1 ++ m2).
    rewrite E2, E1, app_assoc; split; [reflexivity|].
    intros sc Hin; apply in_app_or in Hin as [Hin|Hin]; [auto|].
    rewrite <- Ei1; auto.
Qed.

Ltac unknown_leaf :=
  solve [split; [reflexivity|]; exists []; rewrite app_nil_r; split; [reflexivity|];
         intros ? []].

Lemma loadHeadScripts_cases (sc : ScriptEl) (w : World) :
  (known_source_and_text (initialScripts w) sc /\ snd (loadHeadScripts sc w) = w)
  \/ (~ known_source_and_text (initialScripts w) sc
      /\ snd (loadHeadScripts sc w) = injected sc w).
Proof.
  destruct (isNotInitialScript_total sc w) as [b Eb]. destruct b.
  - right.
    assert (Hn : ~ known_source_and_text (initialScripts w) sc)
      by (intros Hk; apply isNotInitialScript_false in Hk; rewrite Eb in Hk; discriminate).
    split; [exact Hn|]. rewrite (loadHeadScripts_unknown sc w Hn). reflexivity.
  - left. split; [apply isNotInitialScript_false; exact Eb|].
    unfold loadHeadScripts. unfold bind at 1. rewrite Eb. reflexivity.
Qed.

Lemma unknown_loadHeadScripts (sc : ScriptEl) :
  preserves unknown_step (loadHeadScripts sc).
Proof.
  intros w. destruct (loadHeadScripts_cases sc w) as [[_ E]|[Hn E]]; rewrite E.
  - reflexivity.
  - split; [reflexivity|]. exists [sc]; split; [reflexivity|].
    intros x [<-|[]]; exact Hn.
Qed.

Lemma unknown_exec (op : Op) : preserves unknown_step (exec op).
Proof.
  pose proof unknown_loadHeadScripts as Hh.
  destruct op; simpl;
    unfold history_go, onpopstate, navigate, navigate_then, navigate_catch, console_error,
      getUrl, getPage, fetch, parseHTML, clear, loadHTML, runScripts, enableSPA, pushState,
      loadBodyScripts, createElement_script, emit;
    repeat first [apply Hh | progress frame_with unknown_leaf].
Qed.

(** X20.  The registry of an attached router holds only scripts that
    [isNotInitialScript] accepted: whatever operations ran, for each stored
    script the snapshot lacks an entry with its source or lacks an entry
    with its text.  A script of a fetched page with the source and the text
    of initial scripts is therefore never stored. *)
Theorem registry_holds_unknown_scripts (w : World) :
  reachable w ->
  forall sc, In sc (scriptsStore w) -> ~ known_source_and_text (initialScripts w) sc.
Proof.
  induction 1 as [options page Hen|op w Hr IH].
  - rewrite (constructor_run options page Hen).
    destruct (filterC _ _); simpl; intros sc [].
  - destruct (unknown_exec op w) as [Ei (more & Es & Hm)].
    intros sc Hin. rewrite Ei. rewrite Es in Hin.
    apply in_app_or in Hin as [Hin|Hin]; auto.
Qed.

End Router.

(** ** The claims on sample pages *)

(** C1 as stated fails: on a page at [/index.php] the link to
    [/about.html] gets the listener though no pattern matches the path of
    the document; on the same page at [/index.html] a link to
    [/contact.php] gets none though a pattern matches the path of the
    document. *)
Lemma enableSPA_ignores_document_path :
  let w := set_routes ["*.html"] Samples.home in
  let about := mkLink 1 "/about.html" [] in
  let contact := mkLink 1 "/contact.php" [] in
  let w2 :=
    set_location_pathname "/index.html"
      (set_document (mkDocument FNil (FLink contact FNil FNil) "Home") w) in
  location_pathname w = "/index.php"
  /\ eligible_on_document_path Fragment.test w about = Normal false
  /\ click_listeners (trace (snd (enableSPA Fragment.test w))) = [about]
  /\ eligible_on_document_path Fragment.test w2 contact = Normal true
  /\ click_listeners (trace (snd (enableSPA Fragment.test w2))) = [].
Proof. vm_compute. repeat split. Qed.

(** C1, amended, on the sample page. *)
Lemma enableSPA_matches_link_pathname_witness :
  let w := set_routes ["*.html"] Samples.home in
  let w' := snd (enableSPA Fragment.test w) in
  enableSPA Fragment.test w = (Normal tt, w')
  /\ (forall path,
        enableSPA Fragment.test (set_location_pathname path w)
        = (Normal tt, set_location_pathname path w')).
Proof.
  intros w w'.
  assert (H : enableSPA Fragment.test w = (Normal tt, w')) by reflexivity.
  split; [exact H|].
  exact (proj2 (enableSPA_matches_link_pathname Fragment.test w w' H)).
Defined.

(** C2 as stated fails: the dot of ["*.html"] is not compared with the
    path, it matches any character, so ["/xhtml"] is accepted though it
    does not contain [".html"]. *)
Lemma dot_matches_any_character :
  wildcards "*.html" = 1
  /\ checkRoutes Fragment.test (mkLink 0 "/xhtml" []) ["*.html"] = Normal true
  /\ ~ contains_ci "/xhtml" (replace_first_star "*.html").
Proof.
  split; [reflexivity|]. split; [reflexivity|].
  rewrite contains_ci_search. vm_compute. discriminate.
Qed.

(** The engine of the fragment is one the hypothesis of C2 allows. *)
Lemma fragment_engine_agrees (src : string) (atoms : list Fragment.Atom) (s : string) :
  Fragment.compile src = Some atoms ->
  Fragment.test src s = Normal (Fragment.search atoms s).
Proof. intros H; unfold Fragment.test; rewrite H; reflexivity. Qed.

(** C2, amended, for ["*.html"] and a path in capitals. *)
Lemma checkRoutes_single_pattern_witness :
  let link := mkLink 1 "/About.HTML" [] in
  Fragment.compile (replace_first_star "*.html")
  = Some [Fragment.AnyChar; Fragment.Lit "h"; Fragment.Lit "t"; Fragment.Lit "m";
          Fragment.Lit "l"]
  /\ hasOwnProperty (ln_dataset link) "noSpa" = false
  /\ (checkRoutes Fragment.test link ["*.html"] = Normal true <->
      occurs Fragment.atom_matches
        [Fragment.AnyChar; Fragment.Lit "h"; Fragment.Lit "t"; Fragment.Lit "m";
         Fragment.Lit "l"] "/About.HTML").
Proof.
  intros link. split; [reflexivity|]. split; [reflexivity|].
  exact (proj1 (proj2 (checkRoutes_single_pattern Fragment.test fragment_engine_agrees
                         "*.html" _ link eq_refl eq_refl))).
Defined.

(** C3 as stated fails in one part: the diagnostic does not carry the
    status.  A 404 and a 500 with the same (empty) status text log the same
    message. *)
Lemma diagnostic_omits_status_code :
  let r404 := mkResponse 404 "" None in
  let r500 := mkResponse 500 "" None in
  let logged r :=
    console_errors (trace (snd (navigate Fragment.test Samples.parse (Path "/missing.html")
                                         (FetchResolves r) Samples.home))) in
  ok r404 = false /\ ok r500 = false /\ status r404 <> status r500
  /\ logged r404 = ["There has been a problem with your fetch operation: "]
  /\ logged r500 = logged r404.
Proof. vm_compute. repeat split; discriminate. Qed.

(** C3, amended, for a 404 answer. *)
Lemma navigate_fetch_failure_witness :
  let r := mkResponse 404 "Not Found" None in
  let e := mkError "Not Found" (Some 404%Z) (Some r) in
  requested_path (Path "/missing.html") = Some "/missing.html"
  /\ fetch_fails (FetchResolves r) e
  /\ navigate Fragment.test Samples.parse (Path "/missing.html") (FetchResolves r) Samples.home
     = (Normal tt,
        set_trace [FetchRequest "/missing.html";
                   ConsoleError "There has been a problem with your fetch operation: Not Found"]
                  Samples.home).
Proof.
  intros r e.
  assert (Hf : fetch_fails (FetchResolves r) e) by (apply (fails_status r); reflexivity).
  split; [reflexivity|]. split; [exact Hf|].
  exact (proj1 (navigate_fetch_failure Fragment.test Samples.parse (Path "/missing.html")
                  "/missing.html" (FetchResolves r) e Samples.home eq_refl Hf)).
Defined.

(** C4 as stated fails: a head script with the source URL of an initial
    one, but another text, is not skipped. *)
Lemma same_source_other_text_is_injected :
  let w := snd (constructor Fragment.test Samples.options Samples.home) in
  let sc := mkScript 9 "" "/app.js" " " in
  initialScripts w = [mkScript 0 "" "/app.js" ""]
  /\ existsb (same_identity sc) (initialScripts w) = true
  /\ scriptsStore (snd (loadHeadScripts sc w)) = [sc]
  /\ scripts_of (head (document (snd (loadHeadScripts sc w))))
     = [mkScript 0 "" "/app.js" ""; sc].
Proof. vm_compute. repeat split. Qed.

(** C5 as stated fails: after a navigation to [/b.html], going back to the
    entry of [/index.php] renders it and pushes it again; the entry of
    [/b.html] is gone and the current entry repeats the one before it. *)
Lemma popstate_pushes_again :
  let w1 := snd (constructor Fragment.test Samples.options Samples.home) in
  let w2 := snd (navigate Fragment.test Samples.parse (Path "/b.html")
                          (Samples.ok_page "B") w1) in
  let w3 := snd (history_go Fragment.test Samples.parse 1 (Samples.ok_page "Home") w2) in
  let again := mkEntry (StateObject (Some "/index.php")) "Home" "/index.php" in
  entries w2 = [mkEntry StateNull "Home" "/index.php"; again;
                mkEntry (StateObject (Some "/b.html")) "B" "/b.html"]
  /\ index w2 = 2
  /\ entries w3 = [mkEntry StateNull "Home" "/index.php"; again; again]
  /\ index w3 = 2
  /\ console_errors (trace w3) = [].
Proof. vm_compute. repeat split. Qed.

(** C6 on a page: the router is attached, the user goes back to the entry
    the page was loaded with, whose state is [null]; the listener throws
    and nothing is rendered or logged. *)
Lemma back_to_first_entry_throws :
  let w1 := snd (constructor Fragment.test Samples.options Samples.home) in
  let back := history_go Fragment.test Samples.parse 0 (Samples.ok_page "Home") w1 in
  nth_error (entries w1) 0 = Some (mkEntry StateNull "Home" "/index.php")
  /\ fst back = Throw (TypeError "Cannot read properties of null (reading 'url')")
  /\ document (snd back) = document w1
  /\ console_errors (trace (snd back)) = [].
Proof. vm_compute. repeat split. Qed.

(** C7 as stated fails twice: the new element of a script without a type
    has the type [text/javascript], and a script inside a [div] of the body
    is left as it is, no element being made for it. *)
Lemma body_script_type_and_nesting :
  let after_boot := snd (runScripts [Samples.boot] Samples.swapped) in
  let made := mkScript 8 "text/javascript" "" "boot()" in
  scripts_of (body (document after_boot)) = [Samples.nested; made]
  /\ sc_type made <> sc_type Samples.boot
  /\ runScripts [Samples.nested] Samples.swapped = (Normal tt, Samples.swapped).
Proof. vm_compute. repeat split; discriminate. Qed.

(** C7, amended, for the inline script of the sample body. *)
Lemma runScripts_rebuilds_body_child_witness :
  let w := Samples.swapped in
  let before := FElem "DIV" (FLink (mkLink 5 "/a.html" []) FNil (FScript Samples.nested FNil)) FNil in
  body (document w) = fapp before (FScript Samples.boot FNil)
  /\ (forall s, In s (scripts (document w)) -> sc_id s < next_id w)
  /\ scripts (document (snd (runScripts [Samples.boot] w)))
     = [mkScript 0 "" "/app.js" ""; Samples.nested; rebuilt 8 Samples.boot].
Proof.
  intros w before.
  assert (Hids : forall s, In s (scripts (document w)) -> sc_id s < next_id w)
    by (intros s [<-|[<-|[<-|[]]]]; simpl; lia).
  assert (Habs : ~ In Samples.boot
                   (scripts_of (head (document w)) ++ scripts_of before ++ scripts_of FNil
                    ++ scripts (parsed w)))
    by (simpl; intros [H|[H|[H|[]]]]; discriminate).
  split; [reflexivity|]. split; [exact Hids|].
  destruct (runScripts_rebuilds_body_child Samples.boot w before FNil eq_refl Habs Hids)
    as (Hrun & _).
  rewrite Hrun. reflexivity.
Defined.

(** X19 on the sample body: the script inside the [div] stays, the child
    script is rebuilt. *)
Lemma runScripts_navigation_pass_sample :
  exists w',
    runScripts (scripts (document Samples.swapped) ++ scripts (parsed Samples.swapped))
               Samples.swapped = (Normal tt, w')
    /\ body (document w')
       = FElem "DIV" (FLink (mkLink 5 "/a.html" []) FNil (FScript Samples.nested FNil))
           (FScript (rebuilt 8 Samples.boot) FNil)
    /\ next_id w' = 9.
Proof.
  apply (runScripts_navigation_pass Samples.swapped); simpl.
  - reflexivity.
  - exact I.
  - exact I.
  - repeat split; discriminate.
  - constructor; [simpl; intros [H|[]]; discriminate|].
    constructor; [intros []|constructor].
  - intros s [<-|[<-|[]]]; split; simpl; try lia; intros [H|[H|[]]]; discriminate.
  - intros s [<-|[<-|[]]]; simpl; lia.
Defined.

(** C8 after one navigation, which injects [/extra.js]. *)
Lemma clear_removes_injected_only_witness :
  let w1 := snd (constructor Fragment.test Samples.options Samples.home) in
  let w2 := snd (exec Fragment.test Samples.parse
                      (OpNavigate (Path "/b.html") (Samples.ok_page "B")) w1) in
  reachable Fragment.test Samples.parse w2
  /\ scriptsStore w2 = [mkScript 4 "" "/extra.js" ""]
  /\ clear (snd (clear w2)) = (Normal tt, snd (clear w2)).
Proof.
  intros w1 w2.
  assert (Hr : reachable Fragment.test Samples.parse w2)
    by (apply reach_step, reach_new; reflexivity).
  split; [exact Hr|]. split; [reflexivity|].
  exact (proj2 (proj2 (proj2 (proj2 (proj2
    (clear_removes_injected_only Fragment.test Samples.parse w2 Hr)))))).
Defined.

(** ** The further properties on sample pages *)

(** X3 after the constructor and one navigation: the entry of [/b.html]. *)
Lemma pushed_entries_carry_their_url_witness :
  let ops := [OpNavigate (Path "/b.html") (Samples.ok_page "B")] in
  let w := exec_all Fragment.test Samples.parse ops
             (snd (constructor Fragment.test Samples.options Samples.home)) in
  let e := mkEntry (StateObject (Some "/b.html")) "B" "/b.html" in
  In e (entries w)
  /\ (In e (entries Samples.home) \/ h_state e = StateObject (Some (h_url e))).
Proof.
  intros ops w e.
  assert (Hin : In e (entries w)) by (vm_compute; right; right; left; reflexivity).
  split; [exact Hin|].
  exact (pushed_entries_carry_their_url Fragment.test Samples.parse Samples.options ops
           Samples.home e Hin).
Defined.


(** X7: after a navigation to [/b.html], back to the entry the constructor
    pushed for [/index.php]. *)
Lemma history_go_to_url_entry_witness :
  let w1 := snd (constructor Fragment.test Samples.options Samples.home) in
  let w2 := snd (navigate Fragment.test Samples.parse (Path "/b.html")
                          (Samples.ok_page "B") w1) in
  let entry := mkEntry (StateObject (Some "/index.php")) "Home" "/index.php" in
  nth_error (entries w2) 1 = Some entry
  /\ h_state entry = StateObject (Some "/index.php")
  /\ fst (history_go Fragment.test Samples.parse 1 (Samples.ok_page "Home") w2) = Normal tt.
Proof.
  intros w1 w2 entry.
  assert (Hn : nth_error (entries w2) 1 = Some entry) by reflexivity.
  split; [exact Hn|]. split; [reflexivity|].
  exact (proj1 (history_go_to_url_entry Fragment.test Samples.parse 1
                  (Samples.ok_page "Home") w2 entry "/index.php" Hn eq_refl)).
Defined.

(** X8 for a 200 answer without a text. *)
Lemma navigate_undecodable_body_witness :
  let r := mkResponse 200 "OK" None in
  ok r = true /\ text_body r = None
  /\ navigate Fragment.test Samples.parse (Path "/b.html") (FetchResolves r) Samples.home
     = navigate Fragment.test Samples.parse (Path "/b.html")
         (Samples.ok_page "[object Response]") Samples.home.
Proof.
  intros r. split; [reflexivity|]. split; [reflexivity|].
  exact (navigate_undecodable_body Fragment.test Samples.parse (Path "/b.html") r
           Samples.home eq_refl eq_refl).
Defined.



(** X17 for ["/site/*"]: a page below the directory, with a query. *)
Lemma checkRoutes_is_not_anchored_witness :
  let link := mkLink 1 "/site/" [] in
  let atoms := [Fragment.Lit "/"; Fragment.Lit "s"; Fragment.Lit "i"; Fragment.Lit "t";
                Fragment.Lit "e"; Fragment.Lit "/"] in
  Fragment.compile (replace_first_star "/site/*") = Some atoms
  /\ checkRoutes Fragment.test link ["/site/*"] = Normal true
  /\ checkRoutes Fragment.test (mkLink 1 "/old/site/news.php?page=2" []) ["/site/*"]
     = Normal true.
Proof.
  intros link atoms. split; [reflexivity|]. split; [reflexivity|].
  exact (checkRoutes_is_not_anchored Fragment.test fragment_engine_agrees "/site/*" atoms
           link "/old" "news.php?page=2" eq_refl eq_refl).
Defined.

(** X18 for ["*.html"] and the path [/About.html]. *)
Lemma checkRoutes_ignores_case_witness :
  let link := mkLink 1 "/About.html" [] in
  let atoms := [Fragment.AnyChar; Fragment.Lit "h"; Fragment.Lit "t"; Fragment.Lit "m";
                Fragment.Lit "l"] in
  Fragment.compile (replace_first_star "*.html") = Some atoms
  /\ checkRoutes Fragment.test (mkLink 1 "/ABOUT.HTML" []) ["*.html"]
     = checkRoutes Fragment.test link ["*.html"]
  /\ checkRoutes Fragment.test link ["*.HTML"] = checkRoutes Fragment.test link ["*.html"].
Proof.
  intros link atoms. split; [reflexivity|].
  exact (checkRoutes_ignores_case Fragment.test fragment_engine_agrees "*.html" atoms link
           eq_refl).
Defined.

(** X20 after one navigation: [/extra.js] is stored, and the snapshot,
    which holds [/app.js] only, has no entry with its source. *)
Lemma registry_holds_unknown_scripts_witness :
  let w1 := snd (constructor Fragment.test Samples.options Samples.home) in
  let w2 := snd (exec Fragment.test Samples.parse
                      (OpNavigate (Path "/b.html") (Samples.ok_page "B")) w1) in
  let sc := mkScript 4 "" "/extra.js" "" in
  reachable Fragment.test Samples.parse w2
  /\ In sc (scriptsStore w2)
  /\ ~ known_source_and_text (initialScripts w2) sc.
Proof.
  intros w1 w2 sc.
  assert (Hr : reachable Fragment.test Samples.parse w2)
    by (apply reach_step, reach_new; reflexivity).
  assert (Hin : In sc (scriptsStore w2)) by (vm_compute; left; reflexivity).
  split; [exact Hr|]. split; [exact Hin|].
  exact (registry_holds_unknown_scripts Fragment.test Samples.parse w2 Hr sc Hin).
Defined.
